(** * ScoutIQ analytics transforms: feature extraction, retrieval, simulation

    A shallow embedding of the three Python transforms of [src/ai]
    ([feature_engineering.py], [rag_store.py], [strategy_simulator.py]) and
    the properties that their specification states about them.

    Conventions of the embedding.
    - A Python [str] is a [string]: the sequence of its code points, in the
      range U+0000..U+00FF that [ascii] covers.
    - A Python [int] is a [Z].
    - A Python [float] is an exact number: a rational ([Q]) where the code only
      adds, multiplies and divides, a real ([R]) where it takes a square
      root.  Rounding to binary64 is outside the model, with three
      exceptions: the [OverflowError] of [int / int], which changes control
      flow, is kept; the base probability of the simulator is also
      evaluated on binary64 numbers ([PrimFloat]); and the order of the
      retrieved records, which is the order of binary64 sort keys, is
      proved for any arithmetic of the similarity ([Retrieval]).
    - A [dict] is a finite map from [string] keys; a dict that the code
      mutates or copies lives in a heap and is named by its location.
    - An exception is a value of [exn] returned through [result]. *)

From Stdlib Require Import Floats ZArith QArith Qminmax Qabs Reals Lra Lia String Ascii.
From Stdlib Require Lqa.
From stdpp Require Import base gmap strings list option sorting.

#[local] Set Warnings "-register-all,-inexact-float".

Local Open Scope Z_scope.

(** ** Python values, exceptions and the string primitives the code calls *)

Module Py.

(** Values that [json.loads] produces, and that the transforms store. *)
Inductive pyval :=
  | PNone
  | PBool (b : bool)
  | PInt (z : Z)
  | PFloat (q : Q)
  | PStr (s : string)
  | PList (l : list pyval)
  | PDict (d : gmap string pyval).

Abbreviation dict := (gmap string pyval).

Inductive exn :=
  | AttributeError
  | IndexError
  | ValueError
  | OverflowError
  | TypeError
  | ZeroDivisionError
  | KeyError (k : string).

Inductive result (A : Type) :=
  | Ok (a : A)
  | Raise (e : exn).
Arguments Ok {A} a.
Arguments Raise {A} e.

#[export] Instance result_ret : MRet result := λ A a, Ok a.
#[export] Instance result_bind : MBind result := λ A B f m,
  match m with Ok a => f a | Raise e => Raise e end.

Definition is_ok {A} (m : result A) : bool :=
  match m with Ok _ => true | Raise _ => false end.

(** [d.get(k, default)] and [d.get(k)]. *)
Definition get (d : dict) (k : string) (dflt : pyval) : pyval :=
  default dflt (d !! k).

Definition get_none (d : dict) (k : string) : pyval := get d k PNone.

(** [v == s] for a string literal [s]: only a [str] can be equal to it. *)
Definition eq_str (v : pyval) (s : string) : bool :=
  match v with
  | PStr t => bool_decide (t = s)
  | _ => false
  end.

(** [l[i]] on a list. *)
Definition index {A} (l : list A) (i : nat) : result A :=
  match l !! i with
  | Some x => Ok x
  | None => Raise IndexError
  end.

(** *** Characters *)

Definition code (c : ascii) : nat := nat_of_ascii c.

(** [c.isspace()]: TAB..CR, FS..US, SPACE, NEL and NBSP. *)
Definition is_space (c : ascii) : bool :=
  let n := code c in
  ((9 <=? n) && (n <=? 13) || (28 <=? n) && (n <=? 32)
   || (n =? 133) || (n =? 160))%nat.

(** The whitespace that [int] accepts around a literal: TAB..CR and
    SPACE, NEL and NBSP.  FS..US, which [isspace] and [split] take for
    whitespace, are not among it. *)
Definition is_int_space (c : ascii) : bool :=
  let n := code c in
  ((9 <=? n) && (n <=? 13) || (n =? 32) || (n =? 133) || (n =? 160))%nat.

Definition is_digit (c : ascii) : bool :=
  let n := code c in ((48 <=? n) && (n <=? 57))%nat.

Definition digit_val (c : ascii) : Z := Z.of_nat (code c) - 48.

(** [c.lower()]: A..Z and the Latin-1 capitals (all of U+00C0..U+00DE but
    the multiplication sign) move 32 code points up. *)
Definition lower_char (c : ascii) : ascii :=
  let n := code c in
  if ((65 <=? n) && (n <=? 90)
      || (192 <=? n) && (n <=? 222) && negb (n =? 215))%nat
  then ascii_of_nat (n + 32) else c.

(** *** Strings *)

Fixpoint lower (s : string) : string :=
  match s with
  | EmptyString => EmptyString
  | String c s' => String (lower_char c) (lower s')
  end.

Fixpoint snoc (s : string) (c : ascii) : string :=
  match s with
  | EmptyString => String c EmptyString
  | String d s' => String d (snoc s' c)
  end.

Fixpoint starts_with (p s : string) : bool :=
  match p, s with
  | EmptyString, _ => true
  | String a p', String b s' => bool_decide (a = b) && starts_with p' s'
  | String _ _, EmptyString => false
  end.

(** [s.split()] without a separator: the maximal runs of characters that
    are not whitespace.  [cur] is the run being read. *)
Fixpoint split_ws_go (cur : string) (s : string) : list string :=
  match s with
  | EmptyString =>
      match cur with EmptyString => [] | _ => [cur] end
  | String c s' =>
      if is_space c then
        match cur with
        | EmptyString => split_ws_go EmptyString s'
        | _ => cur :: split_ws_go EmptyString s'
        end
      else split_ws_go (snoc cur c) s'
  end.

Definition split_ws (s : string) : list string := split_ws_go EmptyString s.

(** [s.split(sep)] for a separator that is not empty: the occurrences of
    [sep] are found from the left and do not overlap.  [skip] counts the
    characters of a separator just found that are still to be passed,
    [cur] is the part being read. *)
Fixpoint split_go (sep : string) (skip : nat) (cur : string) (s : string)
  : list string :=
  match s with
  | EmptyString => [cur]
  | String c s' =>
      match skip with
      | S k => split_go sep k cur s'
      | O =>
          if starts_with sep s
          then cur :: split_go sep (String.length sep - 1) EmptyString s'
          else split_go sep O (snoc cur c) s'
      end
  end.

Definition split_str (s sep : string) : list string :=
  split_go sep O EmptyString s.

(** [v.split(sep)]: an [AttributeError] for whatever is not a [str]. *)
Definition split (v : pyval) (sep : string) : result (list string) :=
  match v with
  | PStr s => Ok (split_str s sep)
  | _ => Raise AttributeError
  end.

(** The whitespace at both ends, as [int] skips it. *)
Fixpoint lstrip (s : string) : string :=
  match s with
  | EmptyString => EmptyString
  | String c s' => if is_int_space c then lstrip s' else s
  end.

(** [rstrip_go s] is [None] when [s] is all whitespace. *)
Fixpoint rstrip_go (s : string) : option string :=
  match s with
  | EmptyString => None
  | String c s' =>
      match rstrip_go s' with
      | Some t => Some (String c t)
      | None => if is_int_space c then None else Some (String c EmptyString)
      end
  end.

Definition rstrip (s : string) : string := default EmptyString (rstrip_go s).

(** The digits of an [int] literal: decimal digits, single underscores
    only between two digits.  [after_digit] tells that the last character
    read was a digit. *)
Fixpoint int_digits (s : string) (acc : Z) (after_digit : bool) : result Z :=
  match s with
  | EmptyString => if after_digit then Ok acc else Raise ValueError
  | String c s' =>
      if is_digit c then int_digits s' (10 * acc + digit_val c) true
      else if bool_decide (c = "_"%char) && after_digit
           then int_digits s' acc false
           else Raise ValueError
  end.

(** [int] refuses a literal of more digits than
    [sys.int_info.default_max_str_digits], leading zeros counted. *)
Definition max_str_digits : nat := 4300.

Fixpoint digit_count (s : string) : nat :=
  match s with
  | EmptyString => 0
  | String c s' => ((if is_digit c then 1 else 0) + digit_count s')%nat
  end.

Definition int_literal (s : string) : result Z :=
  if (max_str_digits <? digit_count s)%nat then Raise ValueError
  else int_digits s 0 false.

(** [int(s)] in base ten: surrounding whitespace, one optional sign, the
    digits. *)
Definition int (s : string) : result Z :=
  match rstrip (lstrip s) with
  | String "-" s' => n ← int_literal s'; Ok (- n)
  | String "+" s' => int_literal s'
  | s' => int_literal s'
  end.

(** [a / b] on two [int]: the exact quotient, unless it is too large for a
    binary64 number.  The quotients that round to infinity are those of
    magnitude at least [2^1024 - 2^970]. *)
Definition float_overflow : Q := inject_Z (2 ^ 1024 - 2 ^ 970).

Definition truediv (a b : Z) : result Q :=
  if (b =? 0)%Z then Raise ZeroDivisionError
  else
    let q := (inject_Z a / inject_Z b)%Q in
    if Qle_bool float_overflow (Qabs q) then Raise OverflowError else Ok q.

(** [a / b] where the quotient is bounded by a list length and cannot
    overflow. *)
Definition qdiv (a b : Z) : Q := (inject_Z a / inject_Z b)%Q.

(** [np.clip(x, lo, hi)], [np.mean(l)] and the sum of a list. *)
Definition clip (x lo hi : Q) : Q := Qmin (Qmax x lo) hi.

Definition qsum (l : list Q) : Q := foldr Qplus 0%Q l.

Definition mean (l : list Q) : Q :=
  (qsum l / inject_Z (Z.of_nat (length l)))%Q.

(** Rounding an integer quotient [n / d] ([0 < d]) to the nearest integer,
    ties to the even one, as [round] does. *)
Definition half_even (n d : Z) : Z :=
  let f := n / d in
  let r := 2 * (n mod d) in
  if r <? d then f
  else if d <? r then f + 1
  else if Z.even f then f else f + 1.

(** [round(x, 3)] on a rational. *)
Definition round3 (x : Q) : Q :=
  half_even (Qnum x * 1000) (Z.pos (Qden x)) # 1000.

End Py.

(** ** [feature_engineering.py] *)

Module FeatureEngineering.
Import Py.

(** pandas: [pd.DataFrame(matches)] has one column for every key that some
    record holds, and a record without the key holds NaN ([None] here) in
    that column; [df[k]] raises [KeyError] when there is no such column. *)
Definition column (matches : list dict) (k : string)
  : result (list (option pyval)) :=
  if existsb (λ m, bool_decide (is_Some (m !! k))) matches
  then Ok (map (λ m, m !! k) matches)
  else Raise (KeyError k).

(** [lambda x: 1 if x == 'win' else 0], NaN being equal to nothing. *)
Definition win_indicator (x : option pyval) : Z :=
  match x with
  | Some v => if eq_str v "win" then 1 else 0
  | None => 0
  end.

(** [s.rolling(window=w, min_periods=1).mean()]: at position [i] the mean
    of the last [w] values up to [i], fewer at the start. *)
Definition rolling_mean (w : nat) (l : list Q) : list Q :=
  map (λ i, mean (drop (i + 1 - w) (take (i + 1) l))) (seq 0 (length l)).

Definition calculate_win_rate_trend (matches : list dict) : result Q :=
  if (length matches <? 2)%nat then Ok 0%Q
  else
    results ← column matches "result";
    let win := map (λ x, inject_Z (win_indicator x)) results in
    let rolling_win_rate := rolling_mean 3 win in
    last_rate ← index rolling_win_rate (length rolling_win_rate - 1);
    let recent_trend := (last_rate - mean win)%Q in
    Ok (clip recent_trend (-1) 1).

(** The body of the [try] of [calculate_tempo_score]: the tempo value that
    the match appends to [tempo_scores], if any, or the exception. *)
Definition tempo_of_match (m : dict) : result (option Q) :=
  let score := get m "score" (PStr "0 - 0") in
  parts ← split score " - ";
  p0 ← index parts 0;
  a ← int p0;
  p1 ← index parts 1;
  b ← int p1;
  let total_rounds := a + b in
  if 0 <? total_rounds then
    q ← truediv total_rounds 30;
    Ok (Some (1 - q)%Q)
  else Ok None.

(** One turn of the loop: [except: continue] leaves the list as it is. *)
Definition tempo_step (tempo_scores : list Q) (m : dict) : list Q :=
  match tempo_of_match m with
  | Ok (Some t) => tempo_scores ++ [t]
  | Ok None => tempo_scores
  | Raise _ => tempo_scores
  end.

Definition calculate_tempo_score (matches : list dict) : Q :=
  match matches with
  | [] => (1 # 2)%Q
  | _ =>
      let tempo_scores := foldl tempo_step [] matches in
      clip (match tempo_scores with [] => (1 # 2)%Q | _ => mean tempo_scores end)
           0 1
  end.

(** The body of the [try] of [calculate_comeback_probability] on the
    counters [(comebacks, total)].  Both [int] calls come before the first
    update, so an exception leaves the counters untouched. *)
Definition comeback_of_match (m : dict) (st : Z * Z) : result (Z * Z) :=
  let '(comebacks, total) := st in
  let score := get m "score" (PStr "0 - 0") in
  parts ← split score " - ";
  p0 ← index parts 0;
  won ← int p0;
  p1 ← index parts 1;
  lost ← int p1;
  let total :=
    if eq_str (get_none m "result") "loss" && (lost - won <=? 2)
    then total + 1 else total in
  if eq_str (get_none m "result") "win" && (4 <=? won - lost)
  then Ok (comebacks + 1, total + 1)
  else Ok (comebacks, total).

Definition comeback_step (st : Z * Z) (m : dict) : Z * Z :=
  match comeback_of_match m st with
  | Ok st' => st'
  | Raise _ => st
  end.

Definition calculate_comeback_probability (matches : list dict) : Q :=
  match matches with
  | [] => (1 # 2)%Q
  | _ =>
      let '(comebacks, total) := foldl comeback_step (0, 0) matches in
      if 0 <? total then qdiv comebacks total else (1 # 2)%Q
  end.

(** The two integers that both loops read from the score of a match: the
    statements that [calculate_tempo_score] and
    [calculate_comeback_probability] share, given a name. *)
Definition score_of (m : dict) : result (Z * Z) :=
  let score := get m "score" (PStr "0 - 0") in
  parts ← split score " - ";
  p0 ← index parts 0;
  a ← int p0;
  p1 ← index parts 1;
  b ← int p1;
  Ok (a, b).

(** The dictionary that [main] prints. *)
Record features := Features {
  win_rate_trend : Q;
  tempo_score : Q;
  comeback_probability : Q;
  win_rate : Q
}.

(** The body of the [try] of [main], from the list under ["matches"] on. *)
Definition extract (matches : list dict) : result features :=
  trend ← calculate_win_rate_trend matches;
  let tempo := calculate_tempo_score matches in
  let comeback := calculate_comeback_probability matches in
  let rate :=
    match matches with
    | [] => (1 # 2)%Q
    | _ =>
        let wins :=
          length (filter (λ m, eq_str (get_none m "result") "win" = true)
                         matches) in
        qdiv (Z.of_nat wins) (Z.of_nat (length matches))
    end in
  Ok (Features trend tempo comeback rate).

(** What the process does: it prints the features, or it prints
    [{'error': ...}] and exits with status 1. *)
Inductive outcome :=
  | Printed (r : features)
  | Failed (e : exn).

Definition main (matches : list dict) : outcome :=
  match extract matches with
  | Ok r => Printed r
  | Raise e => Failed e
  end.

End FeatureEngineering.

(** ** [rag_store.py] *)

Module RagStore.
Import Py.

(** *** Vectors *)

Definition rsum (l : list R) : R := foldr Rplus 0%R l.

(** [x ** 0.5] is the square root where the code uses it, on a sum of
    squares. *)
Definition cosine_similarity (a b : list R) : R :=
  let dot := rsum (map (λ p, (p.1 * p.2)%R) (zip a b)) in
  let norm_a := sqrt (rsum (map (λ x, (x * x)%R) a)) in
  let norm_b := sqrt (rsum (map (λ x, (x * x)%R) b)) in
  if Rlt_dec 0 (norm_a * norm_b) then (dot / (norm_a * norm_b))%R else 0%R.

(** [word_counts] keeps its keys in the order of their first insertion. *)
Abbreviation counts := (list (string * Z)).

Fixpoint counts_get (wc : counts) (k : string) (dflt : Z) : Z :=
  match wc with
  | [] => dflt
  | (w, n) :: wc' => if bool_decide (w = k) then n else counts_get wc' k dflt
  end.

Fixpoint counts_set (wc : counts) (k : string) (v : Z) : counts :=
  match wc with
  | [] => [(k, v)]
  | (w, n) :: wc' =>
      if bool_decide (w = k) then (w, v) :: wc' else (w, n) :: counts_set wc' k v
  end.

Definition text_to_vector (text : string) : list Z :=
  let words := split_ws (lower text) in
  let word_counts :=
    foldl (λ wc word, counts_set wc word (counts_get wc word 0 + 1)) [] words in
  map snd word_counts.

(** The integer nearest to a real, ties to the even one. *)
Definition nearest (y : R) : Z :=
  let f := Zfloor y in
  let r := (y - IZR f)%R in
  if Rlt_dec r (1 / 2) then f
  else if Rlt_dec (1 / 2) r then f + 1
  else if Z.even f then f else f + 1.

(** [round(sim, 3)] on a real: the nearest multiple of [1/1000]. *)
Definition round3R (x : R) : Q := nearest (x * 1000) # 1000.

(** *** Sorting and slicing *)

(** [l.sort(key=...)] is a stable sort; on a total preorder of keys the
    result of a stable sort is unique, and this insertion sort computes
    it.  [x] comes from the left of everything already in [l] and is put
    before the first element whose key is not smaller. *)
Fixpoint insert_by {A} (key : A → R) (x : A) (l : list A) : list A :=
  match l with
  | [] => [x]
  | y :: l' =>
      if Rlt_dec (key y) (key x) then y :: insert_by key x l' else x :: y :: l'
  end.

Definition sort_by {A} (key : A → R) (l : list A) : list A :=
  foldr (insert_by key) [] l.

(** [l[:k]]: a negative [k] counts from the end. *)
Definition slice_to {A} (l : list A) (k : Z) : list A :=
  if k <? 0 then take (Z.to_nat (Z.max (Z.of_nat (length l) + k) 0)) l
  else take (Z.to_nat k) l.

Definition enumerate {A} (l : list A) : list (nat * A) :=
  zip (seq 0 (length l)) l.

(** *** The heap of dict objects *)

Definition loc := positive.
Abbreviation heap := (gmap loc dict).

(** A computation reads and updates the heap; [None] is the use of a
    location that names no object, which no Python program can do. *)
Definition M (A : Type) : Type := heap → option (A * heap).

#[export] Instance M_ret : MRet M := λ A a h, Some (a, h).
#[export] Instance M_bind : MBind M := λ A B f m h,
  match m h with
  | Some (a, h') => f a h'
  | None => None
  end.

Definition deref (l : loc) : M dict := λ h,
  match h !! l with
  | Some d => Some (d, h)
  | None => None
  end.

(** [d.copy()]: a new object with the same items. *)
Definition copy (l : loc) : M loc := λ h,
  match h !! l with
  | Some d => let l' := fresh (dom h) in Some (l', <[l' := d]> h)
  | None => None
  end.

(** [d[k] = v]. *)
Definition setitem (l : loc) (k : string) (v : pyval) : M unit := λ h,
  match h !! l with
  | Some d => Some ((), <[l := <[k := v]> d]> h)
  | None => None
  end.

(** A copy of [d] with the two items that the second loop adds. *)
Definition attached (i : nat) (sim : R) (d : dict) : dict :=
  <["rank" := PInt (Z.of_nat i + 1)]> (<["similarity" := PFloat (round3R sim)]> d).

Fixpoint for_each {A S} (body : S → A → M S) (l : list A) (s : S) : M S :=
  match l with
  | [] => mret s
  | x :: l' => s' ← body s x; for_each body l' s'
  end.

Section find.

(** [str(v)] of a value that is not a [str]; an f-string formats a [str]
    as itself. *)
Variable repr : pyval → string.

Definition str_of (v : pyval) : string :=
  match v with
  | PStr s => s
  | _ => repr v
  end.

(** [f"{match.get('teamName', '')} {match.get('result', '')} {match.get('opponent', '')}"] *)
Definition match_text (d : dict) : string :=
  str_of (get d "teamName" (PStr ""))
  +:+ " " +:+ str_of (get d "result" (PStr ""))
  +:+ " " +:+ str_of (get d "opponent" (PStr "")).

(** The similarity of a record to the query vector. *)
Definition match_sim (query_vec : list Z) (d : dict) : R :=
  cosine_similarity (map IZR query_vec) (map IZR (text_to_vector (match_text d))).

(** First loop: [scored.append((sim, match))]. *)
Definition score_step (query_vec : list Z) (scored : list (R * loc)) (match_ : loc)
  : M (list (R * loc)) :=
  d ← deref match_;
  mret (scored ++ [(match_sim query_vec d, match_)]).

(** Second loop: the copy, its two new items, [results.append(result)]. *)
Definition attach_step (results : list loc) (item : nat * (R * loc))
  : M (list loc) :=
  let '(i, (sim, match_)) := item in
  result ← copy match_;
  _ ← setitem result "similarity" (PFloat (round3R sim));
  _ ← setitem result "rank" (PInt (Z.of_nat i + 1));
  mret (results ++ [result]).

Definition find_similar_matches (query : string) (history : list loc) (top_k : Z)
  : M (list loc) :=
  let query_vec := text_to_vector query in
  scored ← for_each (score_step query_vec) history [];
  let scored := sort_by (λ x, (- x.1)%R) scored in
  for_each attach_step (enumerate (slice_to scored top_k)) [].

End find.

(** The corpus that [main] passes. *)
Definition MOCK_HISTORY : list dict :=
  [ {[ "teamName" := PStr "C9"; "result" := PStr "win";
       "score" := PStr "13-5"; "opponent" := PStr "T1" ]};
    {[ "teamName" := PStr "C9"; "result" := PStr "loss";
       "score" := PStr "11-13"; "opponent" := PStr "G2" ]};
    {[ "teamName" := PStr "C9"; "result" := PStr "win";
       "score" := PStr "13-3"; "opponent" := PStr "NAVI" ]} ].

End RagStore.

(** ** [rag_store.py], whatever the arithmetic of the similarity

    [find_similar_matches] computes its sort keys on binary64 numbers:
    [int] to [float], the [** 0.5] of the C library, a division, a
    negation, and the comparison [<] of [list.sort].  The order of the
    results is the order of these numbers, not the order of the exact
    cosines, so the function is read here with that arithmetic as a
    parameter: [K] is the type of the similarities, [similarity a b] what
    [cosine_similarity(a, b)] returns, [sorts_before s t] the outcome of
    the comparison [-s < -t] of two keys, and [rounded s] the value
    [round(s, 3)].  [RagStore] is the instance on exact reals. *)

Module Retrieval.
Import Py RagStore.

Section find.
Variable repr : pyval → string.
Context {K : Type}.
Variable similarity : list Z → list Z → K.
Variable sorts_before : K → K → bool.
Variable rounded : K → pyval.

(** The stable sort by the key [-sim_of x]: [x] comes from the left of
    everything in [l] and stays before the first element whose key is not
    smaller than its own. *)
Fixpoint insert_by {A} (sim_of : A → K) (x : A) (l : list A) : list A :=
  match l with
  | [] => [x]
  | y :: l' =>
      if sorts_before (sim_of y) (sim_of x) then y :: insert_by sim_of x l'
      else x :: y :: l'
  end.

Definition sort_by {A} (sim_of : A → K) (l : list A) : list A :=
  foldr (insert_by sim_of) [] l.

Definition match_sim (query_vec : list Z) (d : dict) : K :=
  similarity query_vec (text_to_vector (match_text repr d)).

(** First loop: [scored.append((sim, match))]. *)
Definition score_step (query_vec : list Z) (scored : list (K * loc)) (match_ : loc)
  : M (list (K * loc)) :=
  d ← deref match_;
  mret (scored ++ [(match_sim query_vec d, match_)]).

(** Second loop: the copy, its two new items, [results.append(result)]. *)
Definition attach_step (results : list loc) (item : nat * (K * loc))
  : M (list loc) :=
  let '(i, (sim, match_)) := item in
  result ← copy match_;
  _ ← setitem result "similarity" (rounded sim);
  _ ← setitem result "rank" (PInt (Z.of_nat i + 1));
  mret (results ++ [result]).

Definition find_similar_matches (query : string) (history : list loc) (top_k : Z)
  : M (list loc) :=
  let query_vec := text_to_vector query in
  scored ← for_each (score_step query_vec) history [];
  let scored := sort_by (λ x, x.1) scored in
  for_each attach_step (enumerate (slice_to scored top_k)) [].

End find.

End Retrieval.

(** ** [strategy_simulator.py] *)

Module StrategySimulator.
Import Py.

(** The arithmetic that [simulate_match] needs, so that one definition is
    read both on exact rationals and on binary64 numbers. *)
Class Arith (F : Type) := {
  add : F → F → F;
  sub : F → F → F;
  mul : F → F → F;
  lt : F → F → bool;
  c0_1 : F;
  c0_4 : F;
  c0_5 : F;
  c0_9 : F
}.

#[export] Instance Arith_Q : Arith Q := {
  add := Qplus; sub := Qminus; mul := Qmult;
  lt := λ x y, negb (Qle_bool y x);
  c0_1 := (1 # 10)%Q; c0_4 := (4 # 10)%Q; c0_5 := (5 # 10)%Q; c0_9 := (9 # 10)%Q
}.

#[export] Instance Arith_float : Arith float := {
  add := PrimFloat.add; sub := PrimFloat.sub; mul := PrimFloat.mul;
  lt := PrimFloat.ltb;
  c0_1 := 0.1%float; c0_4 := 0.4%float; c0_5 := 0.5%float; c0_9 := 0.9%float
}.

Section simulate.
Context {F : Type} `{Arith F}.

(** [min(a, b)] is [a] unless [b < a]; [max(a, b)] is [a] unless [a < b]. *)
Definition py_min (a b : F) : F := if lt b a then b else a.
Definition py_max (a b : F) : F := if lt a b then b else a.

Definition feature (features : gmap string F) (k : string) : F :=
  default c0_5 (features !! k).

(** The probability before sampling. *)
Definition base_probability (features : gmap string F) : F :=
  let base_prob := c0_5 in
  let win_rate := feature features "win_rate" in
  let base_prob := add base_prob (mul (sub win_rate c0_5) c0_4) in
  let tempo := feature features "tempo_score" in
  let base_prob := add base_prob (mul (sub tempo c0_5) c0_1) in
  let comeback := feature features "comeback_probability" in
  let base_prob := add base_prob (mul (sub comeback c0_5) c0_1) in
  py_max c0_1 (py_min c0_9 base_prob).

Definition num_simulations : nat := 1000.

(** [draws i] is what the [i]-th call of [random.random()] returns. *)
Definition simulate_match (features : gmap string F) (draws : nat → F) : Q :=
  let base_prob := base_probability features in
  let wins :=
    length (filter (λ i, lt (draws i) base_prob = true) (seq 0 num_simulations)) in
  let win_probability := qdiv (Z.of_nat wins) (Z.of_nat num_simulations) in
  round3 win_probability.

End simulate.

End StrategySimulator.

(** ** Decimal numerals

    The scores "A - B" and "A-B" that the claims speak of: [A] and [B] are
    written with decimal digits. *)

Module Numerals.
Import Py.

Fixpoint all_chars (p : ascii → bool) (s : string) : bool :=
  match s with
  | EmptyString => true
  | String c s' => p c && all_chars p s'
  end.

(** A numeral is one digit or more. *)
Definition numeral (s : string) : bool :=
  match s with
  | EmptyString => false
  | _ => all_chars is_digit s
  end.

Fixpoint digits_value (acc : Z) (s : string) : Z :=
  match s with
  | EmptyString => acc
  | String c s' => digits_value (10 * acc + digit_val c) s'
  end.

Definition value (s : string) : Z := digits_value 0 s.

Definition not_blank (c : ascii) : bool := negb (bool_decide (c = " "%char)).

End Numerals.

(** ** Invariants and orders used in the proofs *)

Module Invariants.
Import Py RagStore.

(** The counters of the comeback loop: never more comebacks than
    qualifying matches. *)
Definition counters_ok (st : Z * Z) : Prop := 0 <= st.1 <= st.2.

(** The counts of a bag of words are positive. *)
Definition counts_pos (wc : counts) : Prop := Forall (λ p, 0 < p.2) wc.

(** The order that a stable ascending sort by [key] gives to elements
    tagged with their position in the input: smaller key first, and the
    earlier one first among equal keys. *)
Definition before {A} (key : A → R) (p q : nat * A) : Prop :=
  (key p.2 < key q.2)%R ∨ (key p.2 = key q.2 ∧ (p.1 < q.1)%nat).

Definition tags_increase {A} (p q : nat * A) : Prop := (p.1 < q.1)%nat.


(** The corpus [history] is a list of references; in the heap [h] they
    name the records [ds], in this order. *)
Definition corpus_at (h : heap) (history : list loc) (ds : list dict) : Prop :=
  Forall2 (λ l d, h !! l = Some d) history ds.

End Invariants.

(** ** Sample inputs *)

Module Samples.
Import Py.

Definition record (result score : string) : dict :=
  {[ "result" := PStr result; "score" := PStr score ]}.

Definition score_only (score : string) : dict :=
  {[ "score" := PStr score ]}.

(** Two records that hold a score and no result. *)
Definition no_result : list dict :=
  [score_only "13 - 5"; score_only "11 - 13"].

(** A loss recorded with more rounds won than lost, a win recorded with
    fewer. *)
Definition loss_13_5 : dict := record "loss" "13 - 5".
Definition win_5_13 : dict := record "win" "5 - 13".

(** Scores that do not parse, and one whose rounds sum to zero. *)
Definition adversarial : list dict :=
  [record "win" "abc"; record "loss" "13-"; record "win" "0 - 0";
   record "win" "13 - 5"].

(** All three features at [1.0]. *)
Definition all_ones_Q : gmap string Q :=
  {[ "win_rate" := 1%Q; "tempo_score" := 1%Q; "comeback_probability" := 1%Q ]}.

Definition all_ones_float : gmap string float :=
  {[ "win_rate" := 1%float; "tempo_score" := 1%float;
     "comeback_probability" := 1%float ]}.

(** The built-in corpus as three objects of a heap. *)
Definition mock_locs : list RagStore.loc := [1%positive; 2%positive; 3%positive].

Definition mock_heap : gmap RagStore.loc dict :=
  list_to_map (zip mock_locs RagStore.MOCK_HISTORY).

(** A [str] function for the values that are not strings. *)
Definition no_repr (v : pyval) : string := "".



(** The arithmetic of [RagStore]: exact reals. *)
Definition real_similarity (a b : list Z) : R :=
  RagStore.cosine_similarity (map IZR a) (map IZR b).

Definition real_sorts_before (s t : R) : bool :=
  if Rlt_dec (- s) (- t) then true else false.

Definition real_rounded (s : R) : pyval := PFloat (RagStore.round3R s).

End Samples.

(** ** Quantities that the loops of the feature extractor accumulate *)

Module Derived.
Import Py FeatureEngineering.

(** The column [df['win']] as the list of its values. *)
Definition wins (matches : list dict) : list Q :=
  map (λ m : dict, inject_Z (win_indicator (m !! "result"))) matches.

(** What a match appends to [tempo_scores], if anything. *)
Definition tempo_value (m : dict) : option Q :=
  match tempo_of_match m with
  | Ok (Some t) => Some t
  | Ok None => None
  | Raise _ => None
  end.

(** The matches that [calculate_comeback_probability] counts: the wins
    that add to [comebacks] and [total], the losses that add to [total]. *)
Definition qualifying_win (m : dict) : bool :=
  match score_of m with
  | Ok (won, lost) => eq_str (get_none m "result") "win" && (4 <=? won - lost)
  | Raise _ => false
  end.

Definition qualifying_loss (m : dict) : bool :=
  match score_of m with
  | Ok (won, lost) => eq_str (get_none m "result") "loss" && (lost - won <=? 2)
  | Raise _ => false
  end.

Definition count (p : dict → bool) (matches : list dict) : Z :=
  Z.of_nat (length (filter (λ m, p m = true) matches)).

End Derived.

(** ** The dictionary of [text_to_vector] *)

Module Words.
Import Py RagStore.

(** The words of a text, and [word_counts] as the loop of
    [text_to_vector] leaves it. *)
Definition words (text : string) : list string := split_ws (lower text).

Definition word_counts (text : string) : counts :=
  foldl (λ wc word, counts_set wc word (counts_get wc word 0 + 1)) [] (words text).

(** How often [w] occurs in a list of words. *)
Definition occurrences (w : string) (ws : list string) : Z :=
  Z.of_nat (length (filter (λ x, x = w) ws)).

Definition zsum (l : list Z) : Z := foldr Z.add 0 l.

End Words.

(** ** The simulator's base probability *)

Section simulator_facts.
Import StrategySimulator Samples.

(** C4, as stated, fails: with all three features at 1.0 the base
    probability is not 0.9, neither on exact rationals nor on binary64
    numbers. *)
Lemma base_probability_all_ones_not_0_9 :
  ¬ (base_probability all_ones_Q == 9 # 10)%Q
  ∧ PrimFloat.eqb (base_probability all_ones_float) 0.9%float = false.
Proof.
  split; [|by vm_compute].
  vm_compute. discriminate.
Qed.

(** C4, amended: with all three features at 1.0 the base probability is
    0.5 + 0.2 + 0.05 + 0.05 = 0.8: exactly 4/5 on rationals, the binary64
    number nearest to 0.8 on floats.  It is below 0.9, so the clamp leaves
    it as it is. *)
Theorem base_probability_all_ones :
  (base_probability all_ones_Q == 8 # 10)%Q
  ∧ base_probability all_ones_float = 0.8%float
  ∧ lt (base_probability all_ones_Q) c0_9 = true
  ∧ lt (base_probability all_ones_float) c0_9 = true.
Proof.
  repeat split; by vm_compute.
Qed.

End simulator_facts.

(** ** Feature extraction *)

Section feature_facts.
Import Py FeatureEngineering Numerals Invariants Samples.

Lemma tempo_of_match_score m :
  tempo_of_match m =
  (ab ← score_of m;
   if 0 <? ab.1 + ab.2 then q ← truediv (ab.1 + ab.2) 30; Ok (Some (1 - q)%Q)
   else Ok None).
Proof.
  unfold tempo_of_match, score_of.
  destruct (split _ _) as [parts|]; simpl; [|done].
  destruct (index parts 0) as [p0|]; simpl; [|done].
  destruct (int p0) as [a|]; simpl; [|done].
  destruct (index parts 1) as [p1|]; simpl; [|done].
  by destruct (int p1) as [b|].
Qed.

Lemma comeback_of_match_score m comebacks total :
  comeback_of_match m (comebacks, total) =
  (ab ← score_of m;
   let total' :=
     if eq_str (get_none m "result") "loss" && (ab.2 - ab.1 <=? 2)
     then total + 1 else total in
   if eq_str (get_none m "result") "win" && (4 <=? ab.1 - ab.2)
   then Ok (comebacks + 1, total' + 1)
   else Ok (comebacks, total')).
Proof.
  unfold comeback_of_match, score_of.
  destruct (split _ _) as [parts|]; simpl; [|done].
  destruct (index parts 0) as [p0|]; simpl; [|done].
  destruct (int p0) as [a|]; simpl; [|done].
  destruct (index parts 1) as [p1|]; simpl; [|done].
  by destruct (int p1) as [b|].
Qed.

(** A result is not both a loss and a win. *)
Lemma eq_str_loss_win v :
  eq_str v "loss" = true → eq_str v "win" = false.
Proof.
  destruct v; simpl; try done.
  intros Hl%bool_decide_eq_true. by subst.
Qed.

(** C2, as stated, fails: a loss recorded as 13 - 5 has an absolute
    difference of 8, above 2, and still enters the qualifying set; a win
    recorded as 5 - 13 has an absolute difference of 8, at least 4, and
    neither enters the set nor counts as a comeback. *)
Lemma comeback_absolute_margin_fails :
  score_of loss_13_5 = Ok (13, 5)
  ∧ eq_str (get_none loss_13_5 "result") "loss" = true
  ∧ ¬ (Z.abs (13 - 5) <= 2)
  ∧ comeback_step (0, 0) loss_13_5 = (0, 1)
  ∧ score_of win_5_13 = Ok (5, 13)
  ∧ eq_str (get_none win_5_13 "result") "win" = true
  ∧ Z.abs (5 - 13) >= 4
  ∧ comeback_step (0, 0) win_5_13 = (0, 0).
Proof.
  repeat split; first [by vm_compute | simpl; lia].
Qed.

(** C2, amended: for a match whose score parses to [won] and [lost], the
    signed difference decides.  A loss enters the qualifying set exactly
    when [lost - won <= 2] and never counts as a comeback; a win enters it,
    and counts as a comeback, exactly when [won - lost >= 4]; any other
    result changes nothing. *)
Theorem comeback_step_signed_margin m comebacks total won lost :
  score_of m = Ok (won, lost) →
  let st' := comeback_step (comebacks, total) m in
  (eq_str (get_none m "result") "loss" = true →
     st'.1 = comebacks ∧ (st'.2 = total + 1 ↔ lost - won <= 2)
     ∧ (st'.2 = total ↔ ¬ lost - won <= 2))
  ∧ (eq_str (get_none m "result") "win" = true →
     (st'.2 = total + 1 ↔ won - lost >= 4)
     ∧ (st'.1 = comebacks + 1 ↔ won - lost >= 4)
     ∧ (st' = (comebacks, total) ↔ ¬ won - lost >= 4))
  ∧ (eq_str (get_none m "result") "loss" = false →
     eq_str (get_none m "result") "win" = false →
     st' = (comebacks, total)).
Proof.
  intros Hs st'. subst st'. unfold comeback_step.
  rewrite comeback_of_match_score, Hs. simpl.
  split; [|split].
  - intros Hl. rewrite Hl, (eq_str_loss_win _ Hl). simpl.
    destruct (Z.leb_spec (lost - won) 2); simpl; repeat split; intros; lia.
  - intros Hw.
    assert (eq_str (get_none m "result") "loss" = false) as ->.
    { destruct (eq_str (get_none m "result") "loss") eqn:Hl; [|done].
      apply eq_str_loss_win in Hl. congruence. }
    rewrite Hw. simpl.
    destruct (Z.leb_spec 4 (won - lost)); simpl; repeat split;
      first [intros [= ? ?]; lia | intros; lia | done].
  - intros -> ->. done.
Qed.

Lemma comeback_step_signed_margin_witness :
  let st' := comeback_step (0, 0) loss_13_5 in
  st'.1 = 0 ∧ (st'.2 = 0 + 1 ↔ 5 - 13 <= 2).
Proof.
  pose proof (comeback_step_signed_margin loss_13_5 0 0 13 5 eq_refl) as H.
  destruct H as [H _].
  destruct (H eq_refl) as (H1 & H2 & _).
  split; [exact H1 | exact H2].
Defined.

(** *** Reading a score *)

Lemma is_digit_not_space c : is_digit c = true → is_int_space c = false.
Proof.
  destruct c as [[] [] [] [] [] [] [] []]; (discriminate || reflexivity).
Qed.

Lemma is_digit_not_blank c : is_digit c = true → c ≠ " "%char.
Proof. intros Hd ->. discriminate. Qed.

Lemma append_nil s : EmptyString +:+ s = s.
Proof. reflexivity. Qed.

Lemma append_cons c s t : String c s +:+ t = String c (s +:+ t).
Proof. reflexivity. Qed.

Ltac norm_append := rewrite ?append_cons, ?append_nil.

Lemma snoc_append cur c : snoc cur c = cur +:+ String c EmptyString.
Proof.
  induction cur as [|d cur IH]; [done|].
  rewrite append_cons. simpl. by rewrite IH.
Qed.

Lemma append_empty_r s : s +:+ EmptyString = s.
Proof.
  induction s as [|c s IH]; [done|]. rewrite append_cons. by rewrite IH.
Qed.

Lemma append_assoc s t u : (s +:+ t) +:+ u = s +:+ (t +:+ u).
Proof.
  induction s as [|c s IH]; [done|]. rewrite !append_cons. by rewrite IH.
Qed.

Lemma all_chars_append p s t :
  all_chars p (s +:+ t) = all_chars p s && all_chars p t.
Proof.
  induction s as [|c s IH]; [done|]. rewrite append_cons. simpl.
  rewrite IH. by destruct (p c).
Qed.

Lemma all_digits_not_blank s :
  all_chars is_digit s = true → all_chars not_blank s = true.
Proof.
  induction s as [|c s IH]; simpl; [done|].
  intros [Hc Hs]%andb_true_iff. rewrite IH by done.
  unfold not_blank. rewrite bool_decide_eq_false_2; [done|].
  by apply is_digit_not_blank.
Qed.

(** A stretch without a blank holds no separator and is read into the
    current part. *)
Lemma split_go_not_blank s cur rest :
  all_chars not_blank s = true →
  split_go " - " 0 cur (s +:+ rest) = split_go " - " 0 (cur +:+ s) rest.
Proof.
  revert cur. induction s as [|c s IH]; intros cur.
  { by rewrite append_empty_r. }
  simpl. intros [Hc Hs]%andb_true_iff.
  unfold not_blank in Hc. apply negb_true_iff, bool_decide_eq_false in Hc.
  rewrite bool_decide_eq_false_2 by congruence. simpl.
  rewrite IH by done. rewrite snoc_append, append_assoc. done.
Qed.

Lemma split_str_spaces sa sb :
  all_chars not_blank sa = true → all_chars not_blank sb = true →
  split_str (sa +:+ " - " +:+ sb) " - " = [sa; sb].
Proof.
  intros Ha Hb. unfold split_str.
  rewrite split_go_not_blank by done. norm_append. simpl.
  rewrite <- (append_empty_r sb) at 1.
  rewrite split_go_not_blank by done. simpl. done.
Qed.

Lemma split_str_not_blank s :
  all_chars not_blank s = true → split_str s " - " = [s].
Proof.
  intros Hs. unfold split_str.
  rewrite <- (append_empty_r s) at 1.
  rewrite split_go_not_blank by done. done.
Qed.

(** [int] on a string that starts with a digit and holds no whitespace. *)
Lemma rstrip_go_no_space s :
  all_chars (λ c, negb (is_int_space c)) s = true → s ≠ EmptyString →
  rstrip_go s = Some s.
Proof.
  induction s as [|c s IH]; simpl; [done|].
  intros [Hc Hs]%andb_true_iff _.
  destruct s as [|d s].
  - simpl. apply negb_true_iff in Hc. by rewrite Hc.
  - rewrite IH; done.
Qed.

Lemma int_digit_head c s :
  is_digit c = true →
  all_chars (λ c, negb (is_int_space c)) s = true →
  int (String c s) = int_literal (String c s).
Proof.
  intros Hc Hs. unfold int, rstrip.
  assert (lstrip (String c s) = String c s) as ->.
  { simpl. by rewrite is_digit_not_space. }
  rewrite rstrip_go_no_space; [|simpl; by rewrite is_digit_not_space|done].
  simpl default.
  destruct c as [[] [] [] [] [] [] [] []]; (discriminate || reflexivity).
Qed.

Lemma int_digits_numeral s acc :
  all_chars is_digit s = true →
  int_digits s acc true = Ok (digits_value acc s).
Proof.
  revert acc. induction s as [|c s IH]; intros acc; simpl; [done|].
  intros [Hc Hs]%andb_true_iff. rewrite Hc. by apply IH.
Qed.

Lemma all_digits_no_space s :
  all_chars is_digit s = true →
  all_chars (λ c, negb (is_int_space c)) s = true.
Proof.
  induction s as [|c s IH]; simpl; [done|].
  intros [Hc Hs]%andb_true_iff.
  rewrite is_digit_not_space by done. simpl. by apply IH.
Qed.

Lemma numeral_all_digits s : numeral s = true → all_chars is_digit s = true.
Proof. by destruct s. Qed.

Lemma digit_count_numeral s :
  all_chars is_digit s = true → digit_count s = String.length s.
Proof.
  induction s as [|c s IH]; simpl; [done|].
  intros [Hc Hs]%andb_true_iff. rewrite Hc, IH by done. done.
Qed.

Lemma int_numeral s :
  numeral s = true → (String.length s ≤ max_str_digits)%nat →
  int s = Ok (value s).
Proof.
  destruct s as [|c s]; [done|]. unfold numeral. intros Hs Hlen.
  pose proof Hs as Hall. simpl in Hs. apply andb_true_iff in Hs as [Hc Hs].
  rewrite int_digit_head by auto using all_digits_no_space.
  unfold int_literal. rewrite digit_count_numeral by done.
  destruct (Nat.ltb_spec max_str_digits (String.length (String c s))); [lia|].
  simpl. rewrite Hc. unfold value. simpl. by apply int_digits_numeral.
Qed.

(** A dash after the digits is no part of an [int] literal. *)
Lemma int_digits_dash s rest acc b :
  all_chars is_digit s = true →
  int_digits (s +:+ String "-" rest) acc b = Raise ValueError.
Proof.
  revert acc b. induction s as [|c s IH]; intros acc b.
  { intros _. rewrite append_nil. simpl. by destruct b. }
  simpl. intros [Hc Hs]%andb_true_iff. rewrite Hc. by apply IH.
Qed.

Lemma int_numeral_dash sa sb :
  numeral sa = true → numeral sb = true →
  int (sa +:+ "-" +:+ sb) = Raise ValueError.
Proof.
  destruct sa as [|c sa]; [done|]. intros Ha Hb%numeral_all_digits.
  unfold numeral in Ha. simpl in Ha. apply andb_true_iff in Ha as [Hc Ha].
  norm_append. rewrite int_digit_head; [|done|].
  - unfold int_literal. destruct (_ <? _)%nat; [done|].
    simpl. rewrite Hc. by apply int_digits_dash.
  - rewrite all_chars_append. simpl.
    rewrite !all_digits_no_space by done. done.
Qed.

(** The quotient of a positive total by 30 is returned unless it
    overflows. *)
Lemma truediv_30 total :
  0 < total < 30 * (2 ^ 1024 - 2 ^ 970) →
  truediv total 30 = Ok (inject_Z total / inject_Z 30)%Q.
Proof.
  intros [Hpos Hlt]. unfold truediv. simpl (30 =? 0).
  destruct (Qle_bool _ _) eqn:Hle; [|done]. exfalso.
  apply Qle_bool_iff in Hle. unfold float_overflow in Hle.
  remember (2 ^ 1024 - 2 ^ 970) as K eqn:HK. clear HK.
  destruct total as [|p|p]; try lia.
  unfold Qle in Hle. simpl in Hle. lia.
Qed.

Lemma score_of_spaces m sa sb :
  numeral sa = true → numeral sb = true →
  (String.length sa ≤ max_str_digits)%nat →
  (String.length sb ≤ max_str_digits)%nat →
  get m "score" (PStr "0 - 0") = PStr (sa +:+ " - " +:+ sb) →
  score_of m = Ok (value sa, value sb).
Proof.
  intros Ha Hb Hla Hlb Hm. unfold score_of. rewrite Hm. simpl.
  rewrite split_str_spaces
    by auto using all_digits_not_blank, numeral_all_digits.
  simpl. rewrite (int_numeral sa) by done. simpl.
  rewrite (int_numeral sb) by done. done.
Qed.

Lemma score_of_dash m sa sb :
  numeral sa = true → numeral sb = true →
  get m "score" (PStr "0 - 0") = PStr (sa +:+ "-" +:+ sb) →
  score_of m = Raise ValueError.
Proof.
  intros Ha Hb Hm. unfold score_of. rewrite Hm. simpl.
  rewrite split_str_not_blank.
  - simpl. by rewrite int_numeral_dash.
  - rewrite all_chars_append. norm_append. simpl.
    rewrite !all_digits_not_blank by auto using numeral_all_digits. done.
Qed.

(** C1, as stated, fails: the score "13-5" is one part for
    [split(' - ')], [int("13-5")] raises, and the match adds nothing to
    the mean, while "13 - 5" adds 1 - 18/30. *)
Lemma tempo_dash_score_is_skipped :
  tempo_of_match (record "win" "13-5") = Raise ValueError
  ∧ tempo_step [] (record "win" "13-5") = []
  ∧ tempo_step [] (record "win" "13 - 5")
    = [(1 - inject_Z 18 / inject_Z 30)%Q]
  ∧ ¬ (calculate_tempo_score [record "win" "13-5"]
       == calculate_tempo_score [record "win" "13 - 5"])%Q.
Proof.
  repeat split; first [by vm_compute | vm_compute; discriminate].
Qed.

(** C1, amended: [tempo_score] reads a score as two integers separated by
    " - " only.  For numerals [sa] and [sb] that [int] accepts (at most
    4300 digits each), of values [A] and [B] with [A + B > 0] (and a
    quotient that does not overflow), a match scored "sa - sb" adds
    [1 - (A + B) / 30] to the values of the mean, and a match scored
    "sa-sb" raises in [int] and adds nothing. *)
Theorem tempo_step_separator m_spaces m_dash sa sb tempo_scores :
  numeral sa = true → numeral sb = true →
  (String.length sa ≤ max_str_digits)%nat →
  (String.length sb ≤ max_str_digits)%nat →
  0 < value sa + value sb < 30 * (2 ^ 1024 - 2 ^ 970) →
  get m_spaces "score" (PStr "0 - 0") = PStr (sa +:+ " - " +:+ sb) →
  get m_dash "score" (PStr "0 - 0") = PStr (sa +:+ "-" +:+ sb) →
  tempo_step tempo_scores m_spaces
  = tempo_scores ++ [(1 - inject_Z (value sa + value sb) / inject_Z 30)%Q]
  ∧ tempo_of_match m_dash = Raise ValueError
  ∧ tempo_step tempo_scores m_dash = tempo_scores.
Proof.
  intros Ha Hb Hla Hlb Htotal Hspaces Hdash.
  unfold tempo_step. rewrite !tempo_of_match_score.
  rewrite (score_of_spaces m_spaces sa sb) by done.
  rewrite (score_of_dash m_dash sa sb) by done.
  simpl. destruct (Z.ltb_spec 0 (value sa + value sb)); [|lia].
  rewrite truediv_30 by done. done.
Qed.

Lemma tempo_step_separator_witness :
  tempo_step [] (record "win" "13 - 5")
  = [] ++ [(1 - inject_Z (value "13" + value "5") / inject_Z 30)%Q]
  ∧ tempo_of_match (record "win" "13-5") = Raise ValueError
  ∧ tempo_step [] (record "win" "13-5") = [].
Proof.
  apply (tempo_step_separator (record "win" "13 - 5") (record "win" "13-5")
           "13" "5" []); try reflexivity.
  - apply Nat.leb_le. vm_compute. reflexivity.
  - apply Nat.leb_le. vm_compute. reflexivity.
  - vm_compute. split; reflexivity.
Defined.

(** *** Ranges *)

Lemma clip_range x lo hi :
  (lo <= hi)%Q → (lo <= clip x lo hi <= hi)%Q.
Proof.
  intros Hlh. unfold clip. split.
  - apply Q.min_glb; [apply Q.le_max_r | exact Hlh].
  - apply Q.le_min_r.
Qed.

Lemma calculate_tempo_score_range matches :
  (0 <= calculate_tempo_score matches <= 1)%Q.
Proof.
  unfold calculate_tempo_score.
  destruct matches as [|m ms]; [split; discriminate|].
  apply clip_range. discriminate.
Qed.

Lemma calculate_win_rate_trend_range matches v :
  calculate_win_rate_trend matches = Ok v → (-1 <= v <= 1)%Q.
Proof.
  unfold calculate_win_rate_trend.
  destruct (length matches <? 2)%nat.
  { intros [= <-]. split; discriminate. }
  destruct (column matches "result") as [results|]; simpl; [|done].
  destruct (index _ _) as [last_rate|]; simpl; [|done].
  intros [= <-]. apply clip_range. discriminate.
Qed.

Lemma comeback_step_counters st m :
  counters_ok st → counters_ok (comeback_step st m).
Proof.
  destruct st as [c t]. unfold counters_ok, comeback_step. intros Hct.
  simpl in Hct. rewrite comeback_of_match_score.
  destruct (score_of m) as [[a b]|]; simpl; [|done].
  destruct (eq_str (get_none m "result") "loss" && (b - a <=? 2));
    destruct (eq_str (get_none m "result") "win" && (4 <=? a - b));
    simpl; lia.
Qed.

Lemma comeback_loop_counters matches st :
  counters_ok st → counters_ok (foldl comeback_step st matches).
Proof.
  revert st. induction matches as [|m ms IH]; intros st Hst; simpl; [done|].
  apply IH. by apply comeback_step_counters.
Qed.

Lemma qdiv_range c t :
  0 <= c <= t → 0 < t → (0 <= qdiv c t <= 1)%Q.
Proof.
  intros [Hc Hct] Ht. unfold qdiv, Qdiv, Qmult, Qinv, Qle, inject_Z. simpl.
  destruct t as [|tp|tp]; try lia. simpl. lia.
Qed.

Lemma calculate_comeback_probability_range matches :
  (0 <= calculate_comeback_probability matches <= 1)%Q.
Proof.
  unfold calculate_comeback_probability.
  destruct matches as [|m ms]; [split; discriminate|].
  pose proof (comeback_loop_counters (m :: ms) (0, 0)) as Hinv.
  destruct (foldl comeback_step (0, 0) (m :: ms)) as [c t].
  unfold counters_ok in Hinv. simpl in Hinv.
  destruct (Z.ltb_spec 0 t); [|split; discriminate].
  apply qdiv_range; [apply Hinv|]; lia.
Qed.

(** C5: whatever the records hold, the tempo score and the comeback
    probability are returned within [0, 1], and the win-rate trend, whenever
    it is returned, lies within [-1, 1]. *)
Theorem metrics_within_ranges matches :
  (0 <= calculate_tempo_score matches <= 1)%Q
  ∧ (0 <= calculate_comeback_probability matches <= 1)%Q
  ∧ ∀ v, calculate_win_rate_trend matches = Ok v → (-1 <= v <= 1)%Q.
Proof.
  split; [apply calculate_tempo_score_range|].
  split; [apply calculate_comeback_probability_range|].
  apply calculate_win_rate_trend_range.
Qed.

Lemma metrics_within_ranges_witness :
  (0 <= calculate_tempo_score adversarial <= 1)%Q
  ∧ (0 <= calculate_comeback_probability adversarial <= 1)%Q
  ∧ (-1 <= -1 # 12 <= 1)%Q.
Proof.
  destruct (metrics_within_ranges adversarial) as (Ht & Hc & Hw).
  split; [exact Ht|]. split; [exact Hc|].
  apply Hw. vm_compute. reflexivity.
Defined.

(** *** Records without a result *)

Lemma column_raises matches k :
  Forall (λ m : dict, m !! k = None) matches →
  column matches k = Raise (KeyError k).
Proof.
  intros Hnone. unfold column.
  assert (existsb (λ m : dict, bool_decide (is_Some (m !! k))) matches = false)
    as ->; [|done].
  induction Hnone as [|m ms Hm _ IH]; simpl; [done|].
  rewrite IH, Hm. by rewrite bool_decide_eq_false_2 by (by intros [? ?]).
Qed.

Lemma column_returns matches k :
  Exists (λ m : dict, is_Some (m !! k)) matches →
  column matches k = Ok (map (λ m, m !! k) matches).
Proof.
  intros Hsome. unfold column.
  assert (existsb (λ m : dict, bool_decide (is_Some (m !! k))) matches = true)
    as ->; [|done].
  induction Hsome as [m ms Hm|m ms _ IH]; simpl.
  - by rewrite bool_decide_eq_true_2.
  - rewrite IH. by destruct (bool_decide _).
Qed.

(** The trend is raised by exactly the lists of two records or more none
    of which holds a result. *)
Lemma calculate_win_rate_trend_raises matches :
  (2 ≤ length matches)%nat →
  Forall (λ m : dict, m !! "result" = None) matches →
  calculate_win_rate_trend matches = Raise (KeyError "result").
Proof.
  intros Hlen Hnone. unfold calculate_win_rate_trend.
  destruct (Nat.ltb_spec (length matches) 2); [lia|].
  by rewrite column_raises.
Qed.

Lemma calculate_win_rate_trend_returns matches :
  (length matches < 2)%nat ∨ Exists (λ m : dict, is_Some (m !! "result")) matches →
  ∃ v, calculate_win_rate_trend matches = Ok v.
Proof.
  intros Hcase. unfold calculate_win_rate_trend.
  destruct (Nat.ltb_spec (length matches) 2) as [|Hlen]; [by eexists|].
  destruct Hcase as [|Hsome]; [lia|].
  rewrite column_returns by done. simpl.
  destruct (index _ _) as [r|e] eqn:Hidx; simpl; [by eexists|].
  exfalso. unfold index in Hidx.
  destruct (rolling_mean _ _ !! _) eqn:Hl; [done|].
  apply lookup_ge_None in Hl. unfold rolling_mean in Hl.
  rewrite ?length_map, ?length_seq, ?length_map in Hl. lia.
Qed.

(** C3 fails on the code: for two records that hold a score and no
    result, [calculate_win_rate_trend] raises [KeyError], and [main] prints
    the error and fails, although the tempo score, the comeback
    probability and the win rate of the same list are all computed. *)
Theorem extract_fails_without_result :
  calculate_win_rate_trend no_result = Raise (KeyError "result")
  ∧ main no_result = Failed (KeyError "result")
  ∧ (calculate_tempo_score no_result == 3 # 10)%Q
  ∧ (calculate_comeback_probability no_result == 1 # 2)%Q.
Proof.
  repeat split; by vm_compute.
Qed.

End feature_facts.

(** ** Retrieval: vectors and similarity *)

Section vector_facts.
Import Py RagStore Invariants.

Lemma counts_get_nonneg wc k : counts_pos wc → 0 <= counts_get wc k 0.
Proof.
  induction 1 as [|[w n] wc Hn _ IH]; simpl; [done|].
  case_bool_decide; simpl in *; lia.
Qed.

Lemma counts_set_pos wc k v : counts_pos wc → 0 < v → counts_pos (counts_set wc k v).
Proof.
  intros Hwc Hv. induction Hwc as [|[w n] wc Hn Hwc IH]; simpl.
  - by repeat constructor.
  - case_bool_decide; constructor; done.
Qed.

Lemma text_to_vector_pos text : Forall (λ c, 0 < c) (text_to_vector text).
Proof.
  unfold text_to_vector.
  assert (∀ words wc, counts_pos wc →
    counts_pos (foldl (λ wc word, counts_set wc word (counts_get wc word 0 + 1))
                      wc words)) as Hloop.
  { induction words as [|w words IH]; intros wc Hwc; simpl; [done|].
    apply IH, counts_set_pos; [done|].
    pose proof (counts_get_nonneg wc w Hwc). lia. }
  apply Forall_fmap. apply (Hloop _ []). constructor.
Qed.

Lemma rsum_squares_nonneg (a : list R) : (0 <= rsum (map (λ x, x * x) a))%R.
Proof.
  induction a as [|x a IH]; simpl; [lra|]. nra.
Qed.

Lemma rsum_products_nonneg (a b : list R) :
  Forall (λ x, 0 <= x)%R a → Forall (λ x, 0 <= x)%R b →
  (0 <= rsum (map (λ p, p.1 * p.2) (zip a b)))%R.
Proof.
  intros Ha. revert b. induction Ha as [|x a Hx Ha IH]; intros b Hb; simpl.
  { lra. }
  destruct Hb as [|y b Hy Hb]; simpl; [lra|].
  specialize (IH b Hb). nra.
Qed.

Lemma le_sqrt_of_square t u : (t * t <= u)%R → (t <= sqrt u)%R.
Proof.
  intros Htu. destruct (Rle_dec 0 t) as [Ht|Ht].
  - rewrite <- (sqrt_square t Ht). apply sqrt_le_1_alt. exact Htu.
  - pose proof (sqrt_pos u). lra.
Qed.

(** Cauchy and Schwarz, for a product summed over the shorter length. *)
Lemma dot_le_norms (a b : list R) :
  (rsum (map (λ p, p.1 * p.2) (zip a b))
   <= sqrt (rsum (map (λ x, x * x) a)) * sqrt (rsum (map (λ x, x * x) b)))%R.
Proof.
  revert b. induction a as [|x a IH]; intros b; simpl.
  { rewrite sqrt_0. lra. }
  destruct b as [|y b]; simpl.
  { rewrite sqrt_0. lra. }
  specialize (IH b).
  pose proof (rsum_squares_nonneg a) as HA.
  pose proof (rsum_squares_nonneg b) as HB.
  set (A := rsum (map (λ x, (x * x)%R) a)) in *.
  set (B := rsum (map (λ x, (x * x)%R) b)) in *.
  set (D := rsum (map (λ p, (p.1 * p.2)%R) (zip a b))) in *.
  pose proof (sqrt_pos A) as HsA. pose proof (sqrt_pos B) as HsB.
  pose proof (sqrt_sqrt A HA) as HAA. pose proof (sqrt_sqrt B HB) as HBB.
  rewrite <- sqrt_mult by nra.
  apply Rle_trans with (x * y + sqrt A * sqrt B)%R; [lra|].
  apply le_sqrt_of_square.
  remember (sqrt A) as sa eqn:Hsa. remember (sqrt B) as sb eqn:Hsb.
  rewrite <- HAA, <- HBB.
  replace ((x * x + sa * sa) * (y * y + sb * sb))%R
    with ((x * y + sa * sb) * (x * y + sa * sb)
          + (x * sb - y * sa) * (x * sb - y * sa))%R by ring.
  pose proof (Rle_0_sqr (x * sb - y * sa)) as Hsq. unfold Rsqr in Hsq. lra.
Qed.

Lemma cosine_similarity_zero_norm (a b : list R) :
  (sqrt (rsum (map (λ x, x * x) a)) = 0
   ∨ sqrt (rsum (map (λ x, x * x) b)) = 0)%R →
  cosine_similarity a b = 0%R.
Proof.
  intros H. unfold cosine_similarity.
  destruct (Rlt_dec _ _) as [Hlt|]; [|done].
  exfalso. destruct H as [H|H]; rewrite H in Hlt; lra.
Qed.

Lemma cosine_similarity_range (a b : list R) :
  Forall (λ x, 0 <= x)%R a → Forall (λ x, 0 <= x)%R b →
  (0 <= cosine_similarity a b <= 1)%R.
Proof.
  intros Ha Hb. unfold cosine_similarity.
  pose proof (dot_le_norms a b) as Hcs.
  pose proof (rsum_products_nonneg a b Ha Hb) as Hdot.
  destruct (Rlt_dec _ _) as [Hlt|]; [|lra].
  split.
  - apply Rmult_le_pos; [done|]. left. by apply Rinv_0_lt_compat.
  - apply (Rmult_le_reg_r _ _ _ Hlt).
    unfold Rdiv. rewrite Rmult_assoc, Rinv_l by lra. lra.
Qed.

(** *** Rounding to three decimals *)

Lemma round3R_nearest x : round3R x = nearest (x * 1000) # 1000.
Proof. reflexivity. Qed.

Lemma nearest_bounds y : Zfloor y <= nearest y <= Zfloor y + 1.
Proof.
  unfold nearest. repeat destruct (Rlt_dec _ _); try lia.
  destruct (Z.even _); lia.
Qed.

Lemma nearest_of_integer z : nearest (IZR z) = z.
Proof.
  unfold nearest. rewrite ZfloorZ.
  destruct (Rlt_dec _ _) as [|Hn]; [done|]. exfalso. apply Hn. lra.
Qed.

Lemma nearest_mono y y' : (y <= y')%R → nearest y <= nearest y'.
Proof.
  intros Hy. pose proof (Zfloor_le y y' Hy) as Hf.
  destruct (decide (Zfloor y = Zfloor y')) as [Heq|Hne].
  - unfold nearest. rewrite <- Heq.
    repeat destruct (Rlt_dec _ _); try lia; try lra.
    all: destruct (Z.even _); lia.
  - pose proof (nearest_bounds y). pose proof (nearest_bounds y'). lia.
Qed.

Lemma round3R_mono x x' : (x <= x')%R → (round3R x <= round3R x')%Q.
Proof.
  intros Hx. rewrite !round3R_nearest. unfold Qle. simpl.
  assert (nearest (x * 1000) <= nearest (x' * 1000)) by (apply nearest_mono; lra).
  lia.
Qed.

Lemma round3R_range x : (0 <= x <= 1)%R → (0 <= round3R x <= 1)%Q.
Proof.
  intros [H0 H1]. rewrite round3R_nearest.
  assert (nearest 0 <= nearest (x * 1000)) as Hlo by (apply nearest_mono; lra).
  assert (nearest (x * 1000) <= nearest 1000) as Hhi by (apply nearest_mono; lra).
  rewrite (nearest_of_integer 0) in Hlo. rewrite (nearest_of_integer 1000) in Hhi.
  unfold Qle. simpl. lia.
Qed.

End vector_facts.

(** ** Retrieval: the stable sort *)

Section sort_facts.
Import Py RagStore Invariants.

Lemma insert_by_perm {A} (key : A → R) x l : insert_by key x l ≡ₚ x :: l.
Proof.
  induction l as [|y l IH]; simpl; [done|].
  destruct (Rlt_dec _ _); [|done].
  rewrite IH. apply Permutation_swap.
Qed.

Lemma sort_by_perm {A} (key : A → R) l : sort_by key l ≡ₚ l.
Proof.
  induction l as [|x l IH]; simpl; [done|].
  rewrite insert_by_perm. by rewrite IH.
Qed.

Lemma length_sort_by {A} (key : A → R) l : length (sort_by key l) = length l.
Proof. apply Permutation_length, sort_by_perm. Qed.

(** Sorting the images by [key] is sorting the arguments by [key ∘ f]. *)
Lemma insert_by_fmap {A} {B} (f : B → A) (key : A → R) x l :
  f <$> insert_by (λ y, key (f y)) x l = insert_by key (f x) (f <$> l).
Proof.
  induction l as [|y l IH]; [done|].
  rewrite fmap_cons. simpl insert_by.
  destruct (Rlt_dec _ _); rewrite ?fmap_cons; [|done]. by rewrite IH.
Qed.

Lemma sort_by_fmap {A} {B} (f : B → A) (key : A → R) l :
  f <$> sort_by (λ y, key (f y)) l = sort_by key (f <$> l).
Proof.
  induction l as [|x l IH]; [done|].
  rewrite fmap_cons. unfold sort_by in *. simpl foldr.
  rewrite insert_by_fmap. by rewrite IH.
Qed.

(** On a list tagged with positions, the sort is stable. *)
Lemma before_key_le {A} (key : A → R) p q : before key p q → (key p.2 <= key q.2)%R.
Proof. intros [?|[? _]]; lra. Qed.

Lemma insert_by_before {A} (key : A → R) p l :
  StronglySorted (before key) l →
  Forall (tags_increase p) l →
  StronglySorted (before key) (insert_by (λ q, key q.2) p l).
Proof.
  induction l as [|y l IH]; simpl; intros Hs Ht.
  { by repeat constructor. }
  apply StronglySorted_cons in Hs as [Hy Hs].
  apply Forall_cons in Ht as [Hpy Ht].
  destruct (Rlt_dec _ _) as [Hlt|Hge].
  - apply StronglySorted_cons. split; [|by apply IH].
    rewrite insert_by_perm. constructor; [by left|done].
  - apply StronglySorted_cons. split; [|by apply StronglySorted_cons].
    assert (before key p y) as Hbpy.
    { destruct (Rle_lt_or_eq_dec (key p.2) (key y.2)) as [?|Heq]; [lra|by left|].
      right. done. }
    constructor; [done|].
    rewrite Forall_forall in Hy, Ht |- *. intros z Hz.
    specialize (Hy z Hz). specialize (Ht z Hz).
    apply before_key_le in Hy as Hyz.
    destruct Hbpy as [?|[Heq _]]; [left; lra|].
    destruct (Rle_lt_or_eq_dec (key p.2) (key z.2)) as [?|Heq']; [lra|by left|].
    right. done.
Qed.

Lemma sort_by_before {A} (key : A → R) (l : list (nat * A)) :
  StronglySorted tags_increase l →
  StronglySorted (before key) (sort_by (λ q, key q.2) l).
Proof.
  induction l as [|p l IH]; simpl; intros Hs.
  { constructor. }
  apply StronglySorted_cons in Hs as [Hp Hs].
  apply insert_by_before; [by apply IH|].
  by rewrite sort_by_perm.
Qed.

(** [enumerate] tags every element with its position. *)
Lemma elem_of_zip_seq {A} (l : list A) n j x :
  (j, x) ∈ zip (seq n (length l)) l → (n ≤ j)%nat ∧ l !! (j - n)%nat = Some x.
Proof.
  revert n. induction l as [|y l IH]; intros n; simpl.
  { by intros ?%elem_of_nil. }
  intros [[= -> ->]|Hin]%elem_of_cons.
  - split; [lia|]. by rewrite Nat.sub_diag.
  - apply IH in Hin as [Hle Hl]. split; [lia|].
    replace (j - n)%nat with (S (j - S n)) by lia. done.
Qed.

Lemma elem_of_enumerate {A} (l : list A) j x :
  (j, x) ∈ enumerate l → l !! j = Some x.
Proof.
  intros [_ Hl]%elem_of_zip_seq. by rewrite Nat.sub_0_r in Hl.
Qed.

Lemma zip_seq_tags_increase {A} (l : list A) n :
  StronglySorted tags_increase (zip (seq n (length l)) l).
Proof.
  revert n. induction l as [|y l IH]; intros n; simpl; [constructor|].
  apply StronglySorted_cons. split; [|apply IH].
  apply Forall_forall. intros [j x] [Hle _]%elem_of_zip_seq.
  unfold tags_increase. simpl. lia.
Qed.

Lemma enumerate_tags_increase {A} (l : list A) :
  StronglySorted tags_increase (enumerate l).
Proof. apply zip_seq_tags_increase. Qed.

Lemma snd_enumerate {A} (l : list A) : (enumerate l).*2 = l.
Proof. unfold enumerate. apply snd_zip. by rewrite length_seq. Qed.

Lemma length_enumerate {A} (l : list A) : length (enumerate l) = length l.
Proof.
  unfold enumerate. rewrite length_zip, length_seq. lia.
Qed.

Lemma enumerate_lookup {A} (l : list A) i x :
  l !! i = Some x → enumerate l !! i = Some (i, x).
Proof.
  intros Hl. unfold enumerate. apply lookup_zip_with_Some.
  exists i, x. split; [done|]. split; [|done].
  apply lookup_seq. split; [done|]. by eapply lookup_lt_Some.
Qed.

(** The sort of a list is read off the sort of the tagged list. *)
Lemma sort_by_enumerate {A} (key : A → R) l :
  sort_by key l = (sort_by (λ q, key q.2) (enumerate l)).*2.
Proof.
  rewrite (sort_by_fmap snd key). by rewrite snd_enumerate.
Qed.

(** *** Slices *)

Lemma slice_to_take {A} (l : list A) k : ∃ n, slice_to l k = take n l.
Proof. unfold slice_to. destruct (k <? 0); eauto. Qed.

Lemma length_slice_to_nonneg {A} (l : list A) k :
  0 <= k → length (slice_to l k) = (Z.to_nat k `min` length l)%nat.
Proof.
  intros Hk. unfold slice_to.
  destruct (Z.ltb_spec k 0); [lia|]. by rewrite length_take.
Qed.

Lemma length_slice_to_neg {A} (l : list A) k :
  k < 0 → - k <= Z.of_nat (length l) →
  Z.of_nat (length (slice_to l k)) = Z.of_nat (length l) + k.
Proof.
  intros Hk Hl. unfold slice_to.
  destruct (Z.ltb_spec k 0); [|lia]. rewrite length_take. lia.
Qed.

Lemma slice_to_fmap {A} {B} (f : A → B) l k :
  slice_to (f <$> l) k = f <$> slice_to l k.
Proof.
  unfold slice_to. rewrite length_fmap.
  destruct (k <? 0); by rewrite fmap_take.
Qed.

Lemma length_slice_to_eq {A} {B} (l : list A) (l' : list B) k :
  length l = length l' → length (slice_to l k) = length (slice_to l' k).
Proof.
  intros Hl. unfold slice_to. rewrite Hl.
  destruct (k <? 0); rewrite !length_take; lia.
Qed.

Lemma StronglySorted_take {A} (R : relation A) n l :
  StronglySorted R l → StronglySorted R (take n l).
Proof.
  intros Hs. rewrite <- (take_drop n l) in Hs.
  by apply StronglySorted_app_1_l in Hs.
Qed.


End sort_facts.

(** ** Retrieval: the two loops and the heap *)

Section retrieve_facts.
Import Py RagStore Invariants.
Variable repr : pyval → string.

Lemma for_each_nil {A S} (body : S → A → M S) s h :
  for_each body [] s h = Some (s, h).
Proof. reflexivity. Qed.

Lemma for_each_cons {A S} (body : S → A → M S) x l s h :
  for_each body (x :: l) s h =
  match body s x h with
  | Some (s', h') => for_each body l s' h'
  | None => None
  end.
Proof. reflexivity. Qed.

(** The first loop reads the heap and leaves it as it is. *)
Lemma score_loop query_vec history ds scored (h : heap) :
  Forall2 (λ l d, h !! l = Some d) history ds →
  for_each (score_step repr query_vec) history scored h
  = Some (scored ++ zip_with (λ d l, (match_sim repr query_vec d, l)) ds history, h).
Proof.
  intros Hv. revert scored.
  induction Hv as [|l d history ds Hl Hv IH]; intros scored.
  { rewrite for_each_nil. simpl. by rewrite app_nil_r. }
  rewrite for_each_cons.
  unfold score_step at 1, deref, mbind, M_bind, mret, M_ret. rewrite Hl.
  rewrite IH. simpl. by rewrite <- app_assoc.
Qed.

(** One turn of the second loop allocates one dict and touches no other. *)
Lemma attach_step_fresh results i sim src d (h : heap) :
  h !! src = Some d →
  attach_step results (i, (sim, src)) h
  = Some (results ++ [fresh (dom h)], <[fresh (dom h) := attached i sim d]> h).
Proof.
  intros Hsrc.
  unfold attach_step, copy, setitem, mbind, M_bind, mret, M_ret. rewrite Hsrc.
  rewrite !lookup_insert_eq. rewrite !insert_insert_eq. done.
Qed.

Lemma attach_loop (items : list (nat * (R * loc))) : ∀ results (h : heap),
  Forall (λ it, is_Some (h !! it.2.2)) items →
  ∃ new h',
    for_each attach_step items results h = Some (results ++ new, h')
    ∧ length new = length items
    ∧ (∀ l d, h !! l = Some d → h' !! l = Some d)
    ∧ (∀ l, l ∈ new → h !! l = None)
    ∧ (∀ k it l, items !! k = Some it → new !! k = Some l →
         ∃ d, h !! it.2.2 = Some d ∧ h' !! l = Some (attached it.1 it.2.1 d)).
Proof.
  induction items as [|[i [sim src]] items IH]; intros results h Hv.
  { exists [], h. rewrite for_each_nil, app_nil_r.
    do 3 (split; [done|]). split.
    - by intros l ?%elem_of_nil.
    - by intros k it l ?. }
  apply Forall_cons in Hv as [[d Hd] Hv]. simpl in Hd.
  set (l0 := fresh (dom h)).
  assert (h !! l0 = None) as Hfresh by apply not_elem_of_dom, is_fresh.
  set (h1 := <[l0 := attached i sim d]> h).
  assert (∀ l d', h !! l = Some d' → h1 !! l = Some d') as Hframe.
  { intros l d' Hl. unfold h1. rewrite lookup_insert_ne; [done|]. congruence. }
  destruct (IH (results ++ [l0]) h1) as (new & h' & Hrun & Hlen & Hkeep & Hnew & Hat).
  { eapply Forall_impl; [exact Hv|]. intros it [d' Hd']. eauto. }
  exists (l0 :: new), h'.
  rewrite for_each_cons, (attach_step_fresh _ _ _ _ d) by done.
  fold l0 h1. rewrite Hrun, <- app_assoc. simpl.
  split; [done|]. split; [by rewrite Hlen|]. split; [|split].
  - intros l d' Hl. by apply Hkeep, Hframe.
  - intros l [->|Hl]%elem_of_cons; [done|].
    specialize (Hnew l Hl). unfold h1 in Hnew.
    apply lookup_insert_None in Hnew as [? _]. done.
  - intros [|k] it l Hit Hl; simpl in Hit, Hl.
    + injection Hit as <-. injection Hl as <-. exists d. split; [done|].
      apply Hkeep. unfold h1. by rewrite lookup_insert_eq.
    + destruct (Hat k it l Hit Hl) as (d' & Hd' & Hl').
      exists d'. split; [|done].
      rewrite Forall_forall in Hv.
      destruct (Hv it) as [d'' Hd'']; [by eapply list_elem_of_lookup_2|].
      rewrite Hd''. rewrite (Hframe _ _ Hd'') in Hd'. done.
Qed.

(** What [find_similar_matches] returns.  [picks] lists, in the order of
    the results, the position in the corpus, the similarity and the
    location of every record that is kept. *)
Lemma find_similar_matches_spec query history ds top_k (h : heap) :
  Forall2 (λ l d, h !! l = Some d) history ds →
  let sim := match_sim repr (text_to_vector query) in
  ∃ res h' (picks : list (nat * (R * loc))),
    find_similar_matches repr query history top_k h = Some (res, h')
    ∧ length res = length picks
    ∧ length picks = length (slice_to history top_k)
    ∧ StronglySorted (before (λ x : R * loc, (- x.1)%R)) picks
    ∧ (∀ j s src, (j, (s, src)) ∈ picks →
         ∃ d, ds !! j = Some d ∧ history !! j = Some src ∧ s = sim d)
    ∧ (∀ l d, h !! l = Some d → h' !! l = Some d)
    ∧ (∀ l, l ∈ res → h !! l = None)
    ∧ (∀ i l, res !! i = Some l →
         ∃ j s src d, picks !! i = Some (j, (s, src)) ∧ h !! src = Some d
                      ∧ h' !! l = Some (attached i s d)).
Proof.
  intros Hv sim. unfold find_similar_matches.
  unfold mbind at 1. unfold M_bind. rewrite (score_loop _ _ ds) by done.
  rewrite app_nil_l.
  set (scored := zip_with (λ d l, (match_sim repr (text_to_vector query) d, l))
                          ds history).
  set (key := λ x : R * loc, (- x.1)%R).
  set (tagged := sort_by (λ q : nat * (R * loc), key q.2) (enumerate scored)).
  assert (length scored = length history) as Hlen.
  { unfold scored. rewrite length_zip_with.
    apply Forall2_length in Hv. lia. }
  assert (∀ j s src, scored !! j = Some (s, src) →
            ∃ d, ds !! j = Some d ∧ history !! j = Some src ∧ s = sim d)
    as Hscored.
  { intros j s src Hj. unfold scored in Hj.
    apply lookup_zip_with_Some in Hj as (d & l & [= -> ->] & Hd & Hl). eauto. }
  rewrite (sort_by_enumerate key scored). fold tagged.
  rewrite slice_to_fmap.
  set (picks := slice_to tagged top_k).
  assert (∀ p, p ∈ picks → p ∈ enumerate scored) as Hpicks.
  { intros p Hp. unfold picks in Hp.
    destruct (slice_to_take tagged top_k) as [n Hn]. rewrite Hn in Hp.
    apply elem_of_take in Hp as (i & Hp & _).
    apply list_elem_of_lookup_2 in Hp. unfold tagged in Hp.
    by rewrite sort_by_perm in Hp. }
  destruct (attach_loop (enumerate (picks.*2)) [] h)
    as (new & h' & Hrun & Hnewlen & Hkeep & Hnew & Hat).
  { apply Forall_forall. intros [i [s src]] Hin%elem_of_enumerate. simpl.
    apply list_lookup_fmap_Some in Hin as ([j [s' src']] & Heq & Hp).
    simpl in Heq. injection Heq as <- <-.
    apply list_elem_of_lookup_2, Hpicks, elem_of_enumerate in Hp.
    destruct (Hscored _ _ _ Hp) as (d & _ & Hsrc & _).
    eapply Forall2_lookup_l in Hv as (d' & _ & Hd'); [|exact Hsrc]. eauto. }
  exists new, h', picks. rewrite Hrun, app_nil_l.
  split; [done|].
  split; [by rewrite Hnewlen, length_enumerate, length_fmap|].
  split.
  { unfold picks. apply length_slice_to_eq. unfold tagged.
    by rewrite length_sort_by, length_enumerate. }
  split.
  { unfold picks. destruct (slice_to_take tagged top_k) as [n ->].
    apply StronglySorted_take. unfold tagged.
    apply sort_by_before, enumerate_tags_increase. }
  split.
  { intros j s src Hin%Hpicks%elem_of_enumerate. by apply Hscored. }
  split; [done|]. split; [done|].
  intros i l Hl.
  assert (i < length (picks.*2))%nat as Hi.
  { apply lookup_lt_Some in Hl.
    rewrite Hnewlen, length_enumerate in Hl. done. }
  apply lookup_lt_is_Some in Hi as [[s src] Hp2].
  destruct (Hat i (i, (s, src)) l (enumerate_lookup _ _ _ Hp2) Hl)
    as (d & Hd & Hl').
  apply list_lookup_fmap_Some in Hp2 as ([j [s' src']] & Heq & Hp).
  simpl in Heq. injection Heq as <- <-.
  exists j, s, src, d. done.
Qed.

Lemma attached_rank i s d :
  attached i s d !! "rank" = Some (PInt (Z.of_nat i + 1)).
Proof. unfold attached. by rewrite lookup_insert_eq. Qed.

Lemma attached_similarity i s d :
  attached i s d !! "similarity" = Some (PFloat (round3R s)).
Proof.
  unfold attached. rewrite lookup_insert_ne by done. by rewrite lookup_insert_eq.
Qed.

Lemma match_sim_range query_vec d :
  Forall (λ c, 0 < c) query_vec →
  (0 <= match_sim repr query_vec d <= 1)%R.
Proof.
  intros Hq. unfold match_sim. apply cosine_similarity_range.
  - apply Forall_fmap. eapply Forall_impl; [exact Hq|].
    intros c Hc. simpl in *. apply IZR_le. lia.
  - apply Forall_fmap. eapply Forall_impl; [apply text_to_vector_pos|].
    intros c Hc. simpl in *. apply IZR_le. lia.
Qed.

(** C6: for a [top_k] that is not negative the call succeeds and returns
    [min(top_k, |corpus|)] results: the whole corpus when [top_k] is at
    least its size. *)
Theorem retrieve_length query history ds top_k (h : heap) :
  0 <= top_k → corpus_at h history ds →
  ∃ res h',
    find_similar_matches repr query history top_k h = Some (res, h')
    ∧ length res = (Z.to_nat top_k `min` length history)%nat
    ∧ (Z.of_nat (length history) <= top_k → length res = length history).
Proof.
  intros Hk Hv.
  destruct (find_similar_matches_spec query history ds top_k h Hv)
    as (res & h' & picks & Hrun & Hres & Hpicks & _).
  exists res, h'. split; [done|].
  rewrite Hres, Hpicks, length_slice_to_nonneg by done.
  split; [done|]. lia.
Qed.

(** C10: for a negative [top_k] of magnitude at most the size of the
    corpus, the slice drops the last [|top_k|] candidates and the call
    returns [|corpus| + top_k] results. *)
Theorem retrieve_length_negative query history ds top_k (h : heap) :
  top_k < 0 → - top_k <= Z.of_nat (length history) → corpus_at h history ds →
  ∃ res h',
    find_similar_matches repr query history top_k h = Some (res, h')
    ∧ Z.of_nat (length res) = Z.of_nat (length history) + top_k.
Proof.
  intros Hk Hlen Hv.
  destruct (find_similar_matches_spec query history ds top_k h Hv)
    as (res & h' & picks & Hrun & Hres & Hpicks & _).
  exists res, h'. split; [done|].
  rewrite Hres, Hpicks. by apply length_slice_to_neg.
Qed.

(** C8: the counts of a bag of words are positive, the cosine is 0 when
    the norm of either vector is 0, the product summed over the shorter
    length is at most the product of the two norms, the similarity of a
    record to a query lies in [0, 1], and so does the rounded similarity
    that every result carries. *)
Theorem similarity_within_unit query history ds top_k (h : heap) :
  corpus_at h history ds →
  (∀ text, Forall (λ c, 0 < c) (text_to_vector text))
  ∧ (∀ a b, (sqrt (rsum (map (λ x, x * x) a)) = 0
             ∨ sqrt (rsum (map (λ x, x * x) b)) = 0)%R →
            cosine_similarity a b = 0%R)
  ∧ (∀ a b, (rsum (map (λ p, p.1 * p.2) (zip a b))
             <= sqrt (rsum (map (λ x, x * x) a))
                * sqrt (rsum (map (λ x, x * x) b)))%R)
  ∧ (∀ d, (0 <= match_sim repr (text_to_vector query) d <= 1)%R)
  ∧ ∃ res h',
      find_similar_matches repr query history top_k h = Some (res, h')
      ∧ ∀ l, l ∈ res →
          ∃ r q, h' !! l = Some r ∧ r !! "similarity" = Some (PFloat q)
                 ∧ (0 <= q <= 1)%Q.
Proof.
  intros Hv.
  split; [apply text_to_vector_pos|].
  split; [apply cosine_similarity_zero_norm|].
  split; [apply dot_le_norms|].
  split; [intros d; apply match_sim_range, text_to_vector_pos|].
  destruct (find_similar_matches_spec query history ds top_k h Hv)
    as (res & h' & picks & Hrun & _ & _ & _ & Hpicks & _ & _ & Hat).
  exists res, h'. split; [done|].
  intros l [i Hl]%list_elem_of_lookup_1.
  destruct (Hat i l Hl) as (j & s & src & d & Hp & _ & Hl').
  destruct (Hpicks j s src) as (d' & _ & _ & ->);
    [by eapply list_elem_of_lookup_2|].
  eexists _, _. split; [exact Hl'|]. split; [apply attached_similarity|].
  apply round3R_range, match_sim_range, text_to_vector_pos.
Qed.

(** C9: the call changes no object that existed before it: every record
    of the corpus is in the final heap what it was, and every result is a
    new object, none of them a record of the corpus. *)
Theorem retrieve_frame query history ds top_k (h : heap) :
  corpus_at h history ds →
  ∃ res h',
    find_similar_matches repr query history top_k h = Some (res, h')
    ∧ (∀ l d, h !! l = Some d → h' !! l = Some d)
    ∧ corpus_at h' history ds
    ∧ (∀ l, l ∈ res → h !! l = None ∧ l ∉ history).
Proof.
  intros Hv.
  destruct (find_similar_matches_spec query history ds top_k h Hv)
    as (res & h' & picks & Hrun & _ & _ & _ & _ & Hkeep & Hnew & _).
  exists res, h'. split; [done|]. split; [done|]. split.
  - eapply Forall2_impl; [exact Hv|]. intros l d. apply Hkeep.
  - intros l Hl. split; [by apply Hnew|].
    intros [i Hi]%list_elem_of_lookup_1.
    eapply Forall2_lookup_l in Hv as (d & _ & Hd); [|exact Hi].
    rewrite (Hnew l Hl) in Hd. done.
Qed.

End retrieve_facts.

(** ** The built-in corpus *)

Section mock_facts.
Import Py RagStore Invariants Samples.

Lemma mock_corpus : corpus_at mock_heap mock_locs MOCK_HISTORY.
Proof. repeat constructor. Qed.

Lemma retrieve_length_witness :
  ∃ res h',
    find_similar_matches no_repr "C9 win T1" mock_locs 5 mock_heap = Some (res, h')
    ∧ length res = (Z.to_nat 5 `min` length mock_locs)%nat
    ∧ (Z.of_nat (length mock_locs) <= 5 → length res = length mock_locs).
Proof.
  apply (retrieve_length no_repr "C9 win T1" mock_locs MOCK_HISTORY 5 mock_heap).
  - lia.
  - exact mock_corpus.
Defined.

Lemma retrieve_length_negative_witness :
  ∃ res h',
    find_similar_matches no_repr "C9 win T1" mock_locs (-1) mock_heap
    = Some (res, h')
    ∧ Z.of_nat (length res) = Z.of_nat (length mock_locs) + -1.
Proof.
  apply (retrieve_length_negative no_repr "C9 win T1" mock_locs MOCK_HISTORY
           (-1) mock_heap).
  - lia.
  - simpl. lia.
  - exact mock_corpus.
Defined.

Lemma similarity_within_unit_witness :
  ∃ res h',
    find_similar_matches no_repr "C9 win T1" mock_locs 2 mock_heap
    = Some (res, h')
    ∧ ∀ l, l ∈ res →
        ∃ r q, h' !! l = Some r ∧ r !! "similarity" = Some (PFloat q)
               ∧ (0 <= q <= 1)%Q.
Proof.
  destruct (similarity_within_unit no_repr "C9 win T1" mock_locs MOCK_HISTORY
              2 mock_heap mock_corpus) as (_ & _ & _ & _ & H).
  exact H.
Defined.

Lemma retrieve_frame_witness :
  ∃ res h',
    find_similar_matches no_repr "C9 win T1" mock_locs 2 mock_heap
    = Some (res, h')
    ∧ (∀ l d, mock_heap !! l = Some d → h' !! l = Some d)
    ∧ corpus_at h' mock_locs MOCK_HISTORY
    ∧ (∀ l, l ∈ res → mock_heap !! l = None ∧ l ∉ mock_locs).
Proof.
  apply (retrieve_frame no_repr "C9 win T1" mock_locs MOCK_HISTORY 2 mock_heap).
  exact mock_corpus.
Defined.

End mock_facts.

(** ** Retrieval: the order of the results, whatever the arithmetic *)

Section order_facts.
Import Py RagStore Invariants Samples.
Import Retrieval.
Variable repr : pyval → string.
Context {K : Type}.
Variable similarity : list Z → list Z → K.
Variable sorts_before : K → K → bool.
Variable rounded : K → pyval.

(** What [<] is on the keys: a number is not on both sides of another,
    and "not smaller" is transitive.  Both hold of [<] on binary64
    numbers that are not NaN. *)
Hypothesis sorts_before_asym :
  ∀ s t, sorts_before s t = true → sorts_before t s = false.
Hypothesis sorts_before_trans :
  ∀ s t u, sorts_before s t = false → sorts_before t u = false →
           sorts_before s u = false.














End order_facts.

Section order_instances.
Import Py RagStore Invariants Samples.




Lemma real_sorts_before_asym s t :
  real_sorts_before s t = true → real_sorts_before t s = false.
Proof.
  unfold real_sorts_before. repeat destruct (Rlt_dec _ _); try done. lra.
Qed.

Lemma real_sorts_before_trans s t u :
  real_sorts_before s t = false → real_sorts_before t u = false →
  real_sorts_before s u = false.
Proof.
  unfold real_sorts_before. repeat destruct (Rlt_dec _ _); try done. lra.
Qed.

(** [RagStore.find_similar_matches] is the instance on exact reals. *)
Lemma insert_by_real {A} (sim_of : A → R) x l :
  RagStore.insert_by (λ y, (- sim_of y)%R) x l
  = Retrieval.insert_by real_sorts_before sim_of x l.
Proof.
  induction l as [|y l IH]; simpl; [done|].
  unfold real_sorts_before. destruct (Rlt_dec _ _); [|done]. by rewrite IH.
Qed.

Lemma sort_by_real {A} (sim_of : A → R) l :
  RagStore.sort_by (λ y, (- sim_of y)%R) l
  = Retrieval.sort_by real_sorts_before sim_of l.
Proof.
  induction l as [|x l IH]; [done|].
  unfold RagStore.sort_by, Retrieval.sort_by in *. simpl foldr.
  rewrite IH. apply insert_by_real.
Qed.

Lemma find_similar_matches_real repr query history top_k (h : heap) :
  RagStore.find_similar_matches repr query history top_k h
  = Retrieval.find_similar_matches repr real_similarity real_sorts_before
      real_rounded query history top_k h.
Proof.
  unfold RagStore.find_similar_matches, Retrieval.find_similar_matches.
  unfold mbind, M_bind.
  change (for_each (Retrieval.score_step repr real_similarity
                      (text_to_vector query)) history [] h)
    with (for_each (RagStore.score_step repr (text_to_vector query))
            history [] h).
  destruct (for_each _ history [] h) as [[scored h1]|]; [|done].
  rewrite (sort_by_real (λ x : R * loc, x.1)). done.
Qed.

End order_instances.

(** ** Feature extraction: further properties *)

Section feature_extras.
Import Py FeatureEngineering Numerals Invariants Derived Samples.

(** *** Sums and means of rationals *)

Lemma qsum_bounds (l : list Q) :
  Forall (λ x, 0 <= x <= 1)%Q l →
  (0 <= qsum l <= inject_Z (Z.of_nat (length l)))%Q.
Proof.
  induction 1 as [|x l [Hx0 Hx1] _ [IH0 IH1]].
  { simpl. split; apply Qle_refl. }
  cbn [qsum foldr length]. fold (qsum l).
  rewrite Nat2Z.inj_succ, <- Z.add_1_l, inject_Z_plus.
  change (inject_Z 1) with 1%Q. split.
  - rewrite <- (Qplus_0_l 0). by apply Qplus_le_compat.
  - by apply Qplus_le_compat.
Qed.

Lemma mean_unit_range (l : list Q) :
  Forall (λ x, 0 <= x <= 1)%Q l → (0 <= mean l <= 1)%Q.
Proof.
  intros Hl. destruct (qsum_bounds l Hl) as [H0 H1]. unfold mean.
  destruct l as [|x l].
  { split; discriminate. }
  assert (0 < inject_Z (Z.of_nat (length (x :: l))))%Q as Hpos.
  { change 0%Q with (inject_Z 0). rewrite <- Zlt_Qlt. simpl length. lia. }
  split.
  - apply Qle_shift_div_l; [done|]. by rewrite Qmult_0_l.
  - apply Qle_shift_div_r; [done|]. by rewrite Qmult_1_l.
Qed.

Lemma mean_constant (l : list Q) c :
  l ≠ [] → Forall (λ x, x == c)%Q l → (mean l == c)%Q.
Proof.
  intros Hne Hl. unfold mean.
  assert (qsum l == c * inject_Z (Z.of_nat (length l)))%Q as ->.
  { clear Hne. induction Hl as [|x l Hx _ IH].
    - simpl. by rewrite Qmult_0_r.
    - cbn [qsum foldr length]. fold (qsum l).
      rewrite Nat2Z.inj_succ, <- Z.add_1_l, inject_Z_plus, IH, Hx.
      change (inject_Z 1) with 1%Q. ring. }
  apply Qdiv_mult_l. destruct l; [done|].
  intros Hz. assert (inject_Z (Z.of_nat (length (q :: l))) == inject_Z 0)%Q as Hz'
    by exact Hz.
  apply inject_Z_injective in Hz'. cbn in Hz'. discriminate.
Qed.

Lemma clip_inside x lo hi :
  (lo <= x)%Q → (x <= hi)%Q → (clip x lo hi == x)%Q.
Proof.
  intros Hlo Hhi. unfold clip.
  rewrite (Q.max_l x lo) by done. by apply Q.min_l.
Qed.

Lemma wins_unit matches : Forall (λ x, 0 <= x <= 1)%Q (wins matches).
Proof.
  unfold wins. apply Forall_fmap, Forall_forall. intros m _. simpl.
  unfold win_indicator.
  destruct (m !! "result") as [v|]; [destruct (eq_str v "win")|];
    split; discriminate.
Qed.

(** *** The win rate and the failure of [main] *)

(** X1: whenever the features are returned, the win rate lies in [0, 1]. *)
Theorem extract_win_rate_range matches r :
  extract matches = Ok r → (0 <= win_rate r <= 1)%Q.
Proof.
  unfold extract.
  destruct (calculate_win_rate_trend matches) as [trend|]; simpl; [|done].
  intros [= <-]. simpl.
  destruct matches as [|m ms]; [split; discriminate|].
  apply qdiv_range.
  - split; [lia|]. apply inj_le, length_filter.
  - simpl length. lia.
Qed.

Lemma extract_win_rate_range_witness :
  (0 <= 3 # 4 <= 1)%Q.
Proof.
  apply (extract_win_rate_range adversarial
           (Features (-1 # 12) (12 # 30) 1 (3 # 4))).
  vm_compute. reflexivity.
Defined.

(** X2: on every list of two records or more none of which holds a
    result, the trend raises [KeyError('result')] and [main] fails with
    it, whatever else the records hold. *)
Theorem main_fails_without_result matches :
  (2 ≤ length matches)%nat →
  Forall (λ m : dict, m !! "result" = None) matches →
  calculate_win_rate_trend matches = Raise (KeyError "result")
  ∧ main matches = Failed (KeyError "result").
Proof.
  intros Hlen Hnone.
  pose proof (calculate_win_rate_trend_raises matches Hlen Hnone) as Htrend.
  split; [done|]. unfold main, extract. by rewrite Htrend.
Qed.

Lemma main_fails_without_result_witness :
  calculate_win_rate_trend no_result = Raise (KeyError "result")
  ∧ main no_result = Failed (KeyError "result").
Proof.
  apply main_fails_without_result.
  - simpl. lia.
  - repeat constructor.
Defined.

(** *** The trend *)

Lemma rolling_mean_last l :
  l ≠ [] →
  rolling_mean 3 l !! (length (rolling_mean 3 l) - 1)%nat
  = Some (mean (drop (length l - 3) l)).
Proof.
  intros Hne. unfold rolling_mean. rewrite length_map, length_seq.
  assert (0 < length l)%nat as Hpos by (destruct l; [done|simpl; lia]).
  rewrite list_lookup_fmap, lookup_seq_lt by lia. simpl.
  replace (length l - 1 + 1)%nat with (length l) by lia.
  by rewrite firstn_all.
Qed.

(** The trend before the clip, read off the code. *)
Lemma trend_clipped matches v :
  (2 ≤ length matches)%nat →
  calculate_win_rate_trend matches = Ok v →
  v = clip (mean (drop (length matches - 3) (wins matches)) - mean (wins matches))
           (-1) 1.
Proof.
  intros Hlen. unfold calculate_win_rate_trend.
  destruct (Nat.ltb_spec (length matches) 2); [lia|].
  unfold column. destruct (existsb _ _); simpl; [|done].
  rewrite map_map. fold (wins matches).
  assert (wins matches ≠ []) as Hne.
  { unfold wins. destruct matches; [simpl in *; lia|done]. }
  unfold index. rewrite (rolling_mean_last _ Hne). simpl.
  intros [= <-].
  replace (length (wins matches)) with (length matches)
    by (unfold wins; by rewrite length_map).
  done.
Qed.

(** X3: the clip of the trend never acts.  For two records or more, the
    trend that is returned is the mean of the last three win indicators
    minus the mean of all of them. *)
Theorem calculate_win_rate_trend_value matches v :
  (2 ≤ length matches)%nat →
  calculate_win_rate_trend matches = Ok v →
  (v == mean (drop (length matches - 3) (wins matches)) - mean (wins matches))%Q.
Proof.
  intros Hlen Hv. rewrite (trend_clipped matches v Hlen Hv).
  pose proof (mean_unit_range (wins matches) (wins_unit matches)) as [Ha0 Ha1].
  pose proof (mean_unit_range (drop (length matches - 3) (wins matches)))
    as [Hr0 Hr1].
  { apply Forall_drop, wins_unit. }
  apply clip_inside; Lqa.lra.
Qed.

Lemma calculate_win_rate_trend_value_witness :
  (-1 # 12 == mean (drop (length adversarial - 3) (wins adversarial))
              - mean (wins adversarial))%Q.
Proof.
  apply (calculate_win_rate_trend_value adversarial (-1 # 12)).
  - simpl. lia.
  - vm_compute. reflexivity.
Defined.

(** X4: a history whose matches are all wins, or of which none is a win,
    has trend 0. *)
Theorem calculate_win_rate_trend_constant matches c v :
  Forall (λ m : dict, win_indicator (m !! "result") = c) matches →
  calculate_win_rate_trend matches = Ok v →
  (v == 0)%Q.
Proof.
  intros Hc Hv.
  destruct (Nat.lt_ge_cases (length matches) 2) as [Hlt|Hge].
  { unfold calculate_win_rate_trend in Hv.
    destruct (Nat.ltb_spec (length matches) 2); [|lia].
    by injection Hv as <-. }
  rewrite (trend_clipped matches v Hge Hv).
  assert (Forall (λ x, x == inject_Z c)%Q (wins matches)) as Hw.
  { unfold wins. apply Forall_fmap. eapply Forall_impl; [exact Hc|].
    intros m Hm. simpl. by rewrite Hm. }
  assert (mean (wins matches) == inject_Z c)%Q as Hall.
  { apply mean_constant; [|done].
    unfold wins. destruct matches; [simpl in *; lia|done]. }
  assert (mean (drop (length matches - 3) (wins matches)) == inject_Z c)%Q
    as Hlast.
  { apply mean_constant; [|by apply Forall_drop].
    intros Hnil. apply (f_equal length) in Hnil.
    rewrite length_drop in Hnil. unfold wins in Hnil.
    rewrite length_map in Hnil. simpl in Hnil. lia. }
  rewrite clip_inside; Lqa.lra.
Qed.

Lemma calculate_win_rate_trend_constant_witness : (0 # 9 == 0)%Q.
Proof.
  apply (calculate_win_rate_trend_constant
           [record "win" "13 - 5"; record "win" "x"; record "win" "13-2"] 1
           (0 # 9)).
  - repeat constructor.
  - vm_compute. reflexivity.
Defined.

(** *** The tempo score as a mean over the scores that parse *)

Lemma tempo_loop tempo_scores matches :
  foldl tempo_step tempo_scores matches
  = tempo_scores ++ omap tempo_value matches.
Proof.
  revert tempo_scores.
  induction matches as [|m ms IH]; intros acc; simpl.
  { by rewrite app_nil_r. }
  rewrite IH. unfold tempo_step, tempo_value.
  destruct (tempo_of_match m) as [[t|]|]; simpl; [|done..].
  by rewrite <- app_assoc.
Qed.

Lemma calculate_tempo_score_values matches :
  calculate_tempo_score matches =
  match matches with
  | [] => (1 # 2)%Q
  | _ => clip (match omap tempo_value matches with
               | [] => (1 # 2)%Q
               | _ => mean (omap tempo_value matches)
               end) 0 1
  end.
Proof.
  unfold calculate_tempo_score. destruct matches as [|m ms]; [done|].
  by rewrite tempo_loop.
Qed.

Lemma tempo_value_skipped m :
  (∃ e, score_of m = Raise e)
  ∨ (∃ a b, score_of m = Ok (a, b) ∧ a + b <= 0) →
  tempo_value m = None.
Proof.
  unfold tempo_value. rewrite tempo_of_match_score.
  intros [[e ->]|(a & b & -> & Hab)]; simpl; [done|].
  destruct (Z.ltb_spec 0 (a + b)); [lia|done].
Qed.

(** X5: a match whose score does not parse, or whose two numbers do not
    sum to a positive total, has no effect on the tempo score: the list
    without it has the same score. *)
Theorem calculate_tempo_score_skip ms1 m ms2 :
  (∃ e, score_of m = Raise e)
  ∨ (∃ a b, score_of m = Ok (a, b) ∧ a + b <= 0) →
  calculate_tempo_score (ms1 ++ m :: ms2) = calculate_tempo_score (ms1 ++ ms2).
Proof.
  intros Hskip%tempo_value_skipped.
  rewrite !calculate_tempo_score_values.
  assert (omap tempo_value (ms1 ++ m :: ms2) = omap tempo_value (ms1 ++ ms2))
    as Heq.
  { rewrite !omap_app. f_equal. simpl. by rewrite Hskip. }
  rewrite Heq.
  destruct ms1 as [|m1 ms1]; [destruct ms2 as [|m2 ms2]|]; done.
Qed.

Lemma calculate_tempo_score_skip_witness :
  calculate_tempo_score ([record "win" "13 - 5"] ++ record "win" "13-" :: [])
  = calculate_tempo_score ([record "win" "13 - 5"] ++ []).
Proof.
  apply (calculate_tempo_score_skip [record "win" "13 - 5"] (record "win" "13-") []).
  left. exists ValueError. vm_compute. reflexivity.
Defined.

Lemma qsum_perm l l' : l ≡ₚ l' → (qsum l == qsum l')%Q.
Proof.
  induction 1 as [|x l l' _ IH|x y l|l l' l'' _ IH1 _ IH2]; simpl.
  - reflexivity.
  - by rewrite IH.
  - ring.
  - by rewrite IH1.
Qed.

Lemma mean_perm l l' : l ≡ₚ l' → (mean l == mean l')%Q.
Proof.
  intros Hp. unfold mean.
  rewrite (qsum_perm _ _ Hp), (Permutation_length Hp). reflexivity.
Qed.

Lemma clip_proper x y lo hi : (x == y)%Q → (clip x lo hi == clip y lo hi)%Q.
Proof.
  intros Hxy. unfold clip.
  destruct (Q.max_spec x lo) as [[? ->]|[? ->]],
           (Q.max_spec y lo) as [[? ->]|[? ->]];
    destruct (Q.min_spec lo hi) as [[? Hm]|[? Hm]];
    try reflexivity; try Lqa.lra.
  all: destruct (Q.min_spec x hi) as [[? ->]|[? ->]],
                (Q.min_spec y hi) as [[? ->]|[? ->]]; Lqa.lra.
Qed.

(** X6: the tempo score does not depend on the order of the matches. *)
Theorem calculate_tempo_score_perm ms ms' :
  ms ≡ₚ ms' →
  (calculate_tempo_score ms == calculate_tempo_score ms')%Q.
Proof.
  intros Hp. rewrite !calculate_tempo_score_values.
  pose proof (omap_Permutation tempo_value _ _ Hp) as Hvals.
  destruct ms as [|m ms], ms' as [|m' ms'].
  - reflexivity.
  - by apply Permutation_nil_cons in Hp.
  - symmetry in Hp. by apply Permutation_nil_cons in Hp.
  - apply clip_proper.
    destruct (omap tempo_value (m :: ms)) as [|t ts] eqn:E1,
             (omap tempo_value (m' :: ms')) as [|t' ts'] eqn:E2.
    + reflexivity.
    + by apply Permutation_nil_cons in Hvals.
    + symmetry in Hvals. by apply Permutation_nil_cons in Hvals.
    + by apply mean_perm.
Qed.

Lemma calculate_tempo_score_perm_witness :
  (calculate_tempo_score [record "win" "13 - 5"; record "loss" "3 - 13"]
   == calculate_tempo_score [record "loss" "3 - 13"; record "win" "13 - 5"])%Q.
Proof.
  apply calculate_tempo_score_perm. apply Permutation_swap.
Defined.

(** *** The comeback probability in closed form *)

Lemma qualifying_exclusive m :
  qualifying_loss m = true → qualifying_win m = false.
Proof.
  unfold qualifying_loss, qualifying_win.
  destruct (score_of m) as [[a b]|]; [|done].
  intros [Hl _]%andb_true_iff. by rewrite (eq_str_loss_win _ Hl).
Qed.

Lemma comeback_step_delta c t m :
  comeback_step (c, t) m
  = (c + Z.b2z (qualifying_win m),
     t + Z.b2z (qualifying_loss m) + Z.b2z (qualifying_win m)).
Proof.
  unfold comeback_step. rewrite comeback_of_match_score.
  unfold qualifying_win, qualifying_loss.
  destruct (score_of m) as [[a b]|]; simpl.
  - destruct (eq_str (get_none m "result") "loss" && (b - a <=? 2));
      destruct (eq_str (get_none m "result") "win" && (4 <=? a - b));
      simpl; f_equal; lia.
  - f_equal; lia.
Qed.

Lemma count_cons p m ms : count p (m :: ms) = Z.b2z (p m) + count p ms.
Proof.
  unfold count. rewrite filter_cons.
  destruct (p m); case_decide; try done; simpl length; simpl Z.b2z; lia.
Qed.

Lemma comeback_loop c t matches :
  foldl comeback_step (c, t) matches
  = (c + count qualifying_win matches,
     t + count qualifying_loss matches + count qualifying_win matches).
Proof.
  revert c t. induction matches as [|m ms IH]; intros c t; simpl.
  { unfold count. simpl. f_equal; lia. }
  rewrite comeback_step_delta, IH, !count_cons. f_equal; lia.
Qed.

(** The probability from the counters that the loop leaves. *)
Lemma comeback_of_counters matches :
  calculate_comeback_probability matches =
  let st := foldl comeback_step (0, 0) matches in
  if 0 <? st.2 then qdiv st.1 st.2 else (1 # 2)%Q.
Proof.
  unfold calculate_comeback_probability.
  destruct matches as [|m ms]; [done|].
  by destruct (foldl comeback_step (0, 0) (m :: ms)).
Qed.

(** X7: the comeback probability is [W / (L + W)], where [W] counts the
    wins by 4 rounds or more and [L] the losses by 2 rounds or fewer (in
    signed difference) among the matches whose score parses; it is 0.5
    when there is no such match. *)
Theorem calculate_comeback_probability_closed matches :
  calculate_comeback_probability matches =
  let w := count qualifying_win matches in
  let l := count qualifying_loss matches in
  if 0 <? l + w then qdiv w (l + w) else (1 # 2)%Q.
Proof.
  rewrite comeback_of_counters, comeback_loop. simpl. done.
Qed.

Lemma count_perm p ms ms' : ms ≡ₚ ms' → count p ms = count p ms'.
Proof. intros Hp. unfold count. by rewrite Hp. Qed.

(** X8: the comeback probability does not depend on the order of the
    matches. *)
Theorem calculate_comeback_probability_perm ms ms' :
  ms ≡ₚ ms' →
  calculate_comeback_probability ms = calculate_comeback_probability ms'.
Proof.
  intros Hp. rewrite !comeback_of_counters, !comeback_loop.
  by rewrite !(count_perm _ _ _ Hp).
Qed.

Lemma calculate_comeback_probability_perm_witness :
  calculate_comeback_probability [loss_13_5; record "win" "13 - 5"]
  = calculate_comeback_probability [record "win" "13 - 5"; loss_13_5].
Proof.
  apply calculate_comeback_probability_perm. apply Permutation_swap.
Defined.

(** X9: a match whose score does not parse has no effect on the comeback
    probability. *)
Theorem calculate_comeback_probability_skip ms1 m ms2 e :
  score_of m = Raise e →
  calculate_comeback_probability (ms1 ++ m :: ms2)
  = calculate_comeback_probability (ms1 ++ ms2).
Proof.
  intros Hm. rewrite !comeback_of_counters, !comeback_loop.
  assert (∀ p, (p = qualifying_win ∨ p = qualifying_loss) →
            count p (ms1 ++ m :: ms2) = count p (ms1 ++ ms2)) as Hcount.
  { intros p Hp. unfold count. rewrite !filter_app, filter_cons_False; [done|].
    destruct Hp as [->| ->]; unfold qualifying_win, qualifying_loss;
      by rewrite Hm. }
  rewrite !Hcount by auto. done.
Qed.

Lemma calculate_comeback_probability_skip_witness :
  calculate_comeback_probability ([loss_13_5] ++ record "win" "abc" :: [])
  = calculate_comeback_probability ([loss_13_5] ++ []).
Proof.
  apply (calculate_comeback_probability_skip [loss_13_5] (record "win" "abc") []
           ValueError).
  vm_compute. reflexivity.
Defined.

(** *** Scores that are missing or have more than two parts *)

(** X10: a record without a score is read as "0 - 0": the tempo loop
    skips it, and the comeback loop counts it as a qualifying loss when
    its result is a loss, and ignores it otherwise. *)
Theorem missing_score_default m tempo_scores comebacks total :
  m !! "score" = None →
  score_of m = Ok (0, 0)
  ∧ tempo_step tempo_scores m = tempo_scores
  ∧ comeback_step (comebacks, total) m
    = (comebacks,
       if eq_str (get_none m "result") "loss" then total + 1 else total).
Proof.
  intros Hm.
  assert (score_of m = Ok (0, 0)) as Hs.
  { unfold score_of, get. rewrite Hm. reflexivity. }
  split; [done|]. split.
  - unfold tempo_step. rewrite tempo_of_match_score, Hs. done.
  - rewrite comeback_step_delta. unfold qualifying_win, qualifying_loss.
    rewrite Hs. simpl. rewrite !andb_false_r, andb_true_r. simpl.
    destruct (eq_str (get_none m "result") "loss"); simpl; f_equal; lia.
Qed.

Lemma missing_score_default_witness :
  comeback_step (0, 0) {[ "result" := PStr "loss" ]} = (0, 0 + 1).
Proof.
  destruct (missing_score_default {[ "result" := PStr "loss" ]} [] 0 0)
    as (_ & _ & H); [reflexivity|exact H].
Defined.

Lemma split_str_three sa sb rest :
  all_chars not_blank sa = true → all_chars not_blank sb = true →
  split_str (sa +:+ " - " +:+ sb +:+ " - " +:+ rest) " - "
  = sa :: sb :: split_str rest " - ".
Proof.
  intros Ha Hb. unfold split_str.
  rewrite split_go_not_blank by done. rewrite ?append_cons, ?append_nil. simpl.
  rewrite split_go_not_blank by done. rewrite ?append_cons, ?append_nil. simpl. done.
Qed.

(** X11: only the first two parts of a score are read: whatever follows
    a second " - " is ignored, so "A - B - anything" is the score A to
    B, for numerals A and B that [int] accepts (at most 4300 digits
    each). *)
Theorem score_of_extra_parts m sa sb rest :
  numeral sa = true → numeral sb = true →
  (String.length sa ≤ max_str_digits)%nat →
  (String.length sb ≤ max_str_digits)%nat →
  get m "score" (PStr "0 - 0") = PStr (sa +:+ " - " +:+ sb +:+ " - " +:+ rest) →
  score_of m = Ok (value sa, value sb).
Proof.
  intros Ha Hb Hla Hlb Hm. unfold score_of. rewrite Hm. simpl.
  rewrite split_str_three
    by auto using all_digits_not_blank, numeral_all_digits.
  simpl. rewrite (int_numeral sa) by done. simpl.
  rewrite (int_numeral sb) by done. done.
Qed.

Lemma score_of_extra_parts_witness :
  score_of (record "win" "13 - 5 - overtime") = Ok (value "13", value "5").
Proof.
  apply (score_of_extra_parts (record "win" "13 - 5 - overtime")
           "13" "5" "overtime"); try reflexivity.
  - apply Nat.leb_le. vm_compute. reflexivity.
  - apply Nat.leb_le. vm_compute. reflexivity.
Defined.

End feature_extras.

(** ** Retrieval: further properties of the vectors *)

Section vector_extras.
Import Py RagStore Invariants Words.

Lemma text_to_vector_word_counts text :
  text_to_vector text = map snd (word_counts text).
Proof. reflexivity. Qed.

(** Reading and writing [word_counts]. *)
Lemma counts_get_set wc k v w d :
  counts_get (counts_set wc k v) w d
  = if bool_decide (k = w) then v else counts_get wc w d.
Proof.
  induction wc as [|[x n] wc IH]; simpl.
  { by repeat case_bool_decide. }
  repeat (case_bool_decide; simpl; subst); done.
Qed.

Lemma counts_set_keys wc k v :
  (map fst (counts_set wc k v)) = if bool_decide (k ∈ (map fst wc)) then (map fst wc) else (map fst wc) ++ [k].
Proof.
  induction wc as [|[x n] wc IH]; [done|].
  cbn [counts_set]. destruct (decide (x = k)) as [->|Hx].
  - rewrite (bool_decide_eq_true_2 (k = k)) by done.
    rewrite bool_decide_eq_true_2; [done|]. by left.
  - rewrite (bool_decide_eq_false_2 (x = k)) by done.
    cbn [map fst]. rewrite IH.
    destruct (decide (k ∈ (map fst wc))) as [Hin|Hin].
    + rewrite (bool_decide_eq_true_2 (k ∈ (map fst wc))) by done.
      rewrite bool_decide_eq_true_2; [done|]. by right.
    + rewrite (bool_decide_eq_false_2 (k ∈ (map fst wc))) by done.
      rewrite bool_decide_eq_false_2; [done|].
      intros [?|?]%elem_of_cons; congruence.
Qed.

Lemma counts_set_zsum wc k :
  zsum (map snd (counts_set wc k (counts_get wc k 0 + 1))) = zsum (map snd wc) + 1.
Proof.
  induction wc as [|[x n] wc IH]; simpl; [done|].
  case_bool_decide; simpl; [lia|]. rewrite IH. lia.
Qed.

Lemma occurrences_cons w x ws :
  occurrences w (x :: ws) = Z.b2z (bool_decide (x = w)) + occurrences w ws.
Proof.
  unfold occurrences. rewrite filter_cons.
  case_decide; [rewrite bool_decide_eq_true_2 by done
               |rewrite bool_decide_eq_false_2 by done];
    simpl length; simpl Z.b2z; lia.
Qed.

Lemma word_counts_loop ws : ∀ wc,
  let wc' := foldl (λ wc word, counts_set wc word (counts_get wc word 0 + 1))
                   wc ws in
  (NoDup (map fst wc) → NoDup (map fst wc'))
  ∧ (∀ w, counts_get wc' w 0 = counts_get wc w 0 + occurrences w ws)
  ∧ zsum (map snd wc') = zsum (map snd wc) + Z.of_nat (length ws).
Proof.
  induction ws as [|x ws IH]; intros wc; simpl.
  { split; [done|]. split; [|lia]. intros w. unfold occurrences. simpl. lia. }
  destruct (IH (counts_set wc x (counts_get wc x 0 + 1))) as (Hnd & Hget & Hsum).
  split; [|split].
  - intros Hwc. apply Hnd. rewrite counts_set_keys.
    case_bool_decide as Hin; [done|].
    apply NoDup_app. split; [done|]. split; [|apply NoDup_singleton].
    intros y Hy ->%list_elem_of_singleton. done.
  - intros w. rewrite Hget, counts_get_set, occurrences_cons.
    case_bool_decide; subst; simpl Z.b2z; lia.
  - rewrite Hsum, counts_set_zsum. lia.
Qed.

(** X12: the bag of words is what its name says.  The keys of
    [word_counts] are distinct, the number kept for a word is the number
    of its occurrences in the lower-cased text (none for a word that does
    not occur), and the entries of the vector add up to the number of
    words. *)
Theorem word_counts_correct text :
  NoDup (map fst (word_counts text))
  ∧ (∀ w, counts_get (word_counts text) w 0 = occurrences w (words text))
  ∧ (∀ w, w ∈ (map fst (word_counts text)) ↔ w ∈ words text)
  ∧ zsum (text_to_vector text) = Z.of_nat (length (words text)).
Proof.
  destruct (word_counts_loop (words text) []) as (Hnd & Hget & Hsum).
  fold (word_counts text) in Hnd, Hget, Hsum.
  split; [apply Hnd; constructor|]. split; [done|]. split; [|done].
  intros w. specialize (Hget w). simpl in Hget.
  assert (∀ wc : counts, Forall (λ p, 0 < p.2) wc →
            w ∈ (map fst wc) ↔ 0 < counts_get wc w 0) as Hpos.
  { intros wc Hwc. induction Hwc as [|[x n] wc Hn _ IH]; simpl.
    { split; [by intros ?%elem_of_nil|lia]. }
    case_bool_decide; subst; simpl in *.
    - split; [done|]. intros _. by left.
    - rewrite <- IH. split; [intros [?|?]%elem_of_cons; [congruence|done]|].
      intros ?. by right. }
  rewrite Hpos.
  - rewrite Hget. unfold occurrences. split.
    + intros Hlen. destruct (filter (λ x, x = w) (words text)) as [|y l] eqn:E;
        [simpl in Hlen; lia|].
      assert (y ∈ filter (λ x, x = w) (words text)) as Hy by (rewrite E; by left).
      apply list_elem_of_filter in Hy as [-> Hy]. done.
    + intros Hw.
      assert (w ∈ filter (λ x, x = w) (words text)) as Hf
        by (by apply list_elem_of_filter).
      destruct (filter (λ x, x = w) (words text)); [by apply elem_of_nil in Hf|].
      simpl length. lia.
  - pose proof (text_to_vector_pos text) as Hv.
    exact (proj1 (Forall_fmap snd (λ c : Z, 0 < c) (word_counts text)) Hv).
Qed.

(** *** The cosine *)

Lemma dot_comm (a b : list R) :
  rsum (map (λ p, (p.1 * p.2)%R) (zip a b))
  = rsum (map (λ p, (p.1 * p.2)%R) (zip b a)).
Proof.
  revert b. induction a as [|x a IH]; intros [|y b]; simpl; try done.
  rewrite IH. lra.
Qed.

(** X13: the similarity is symmetric in its two vectors. *)
Theorem cosine_similarity_comm (a b : list R) :
  cosine_similarity a b = cosine_similarity b a.
Proof.
  unfold cosine_similarity.
  rewrite (dot_comm a b).
  rewrite (Rmult_comm (sqrt (rsum (map (λ x, (x * x)%R) a)))). done.
Qed.

Lemma dot_self (a : list R) :
  rsum (map (λ p, (p.1 * p.2)%R) (zip a a)) = rsum (map (λ x, (x * x)%R) a).
Proof. induction a as [|x a IH]; simpl; [done|]. by rewrite IH. Qed.

Lemma cosine_self_of_norm (a : list R) :
  (0 < rsum (map (λ x, x * x) a))%R → cosine_similarity a a = 1%R.
Proof.
  intros Ha. unfold cosine_similarity.
  rewrite dot_self, sqrt_sqrt by lra.
  destruct (Rlt_dec _ _); [|done]. field. lra.
Qed.

(** X14: a vector with an entry that is not zero has similarity 1 to
    itself. *)
Theorem cosine_similarity_self (a : list R) :
  Exists (λ x, x ≠ 0%R) a → cosine_similarity a a = 1%R.
Proof.
  intros Ha. apply cosine_self_of_norm.
  induction Ha as [x a Hx|x a _ IH]; simpl.
  - pose proof (rsum_squares_nonneg a). nra.
  - nra.
Qed.

Lemma cosine_similarity_self_witness :
  cosine_similarity [1%R; 2%R] [1%R; 2%R] = 1%R.
Proof.
  apply cosine_similarity_self. left. lra.
Defined.

(** *** Texts of distinct words *)

Lemma counts_get_absent wc k d : k ∉ (map fst wc) → counts_get wc k d = d.
Proof.
  induction wc as [|[x n] wc IH]; simpl; [done|].
  intros Hk. case_bool_decide; subst.
  - exfalso. apply Hk. by left.
  - apply IH. intros ?. apply Hk. by right.
Qed.

Lemma counts_set_absent wc k v : k ∉ (map fst wc) → counts_set wc k v = wc ++ [(k, v)].
Proof.
  induction wc as [|[x n] wc IH]; simpl; [done|].
  intros Hk. case_bool_decide; subst.
  - exfalso. apply Hk. by left.
  - rewrite IH; [done|]. intros ?. apply Hk. by right.
Qed.

Lemma word_counts_distinct ws : ∀ wc,
  NoDup ws → (∀ w, w ∈ ws → w ∉ (map fst wc)) →
  foldl (λ wc word, counts_set wc word (counts_get wc word 0 + 1)) wc ws
  = wc ++ map (λ w, (w, 1)) ws.
Proof.
  induction ws as [|x ws IH]; intros wc Hnd Hdisj; simpl.
  { by rewrite app_nil_r. }
  apply NoDup_cons in Hnd as [Hx Hnd].
  assert (x ∉ (map fst wc)) as Hxwc by (apply Hdisj; by left).
  rewrite counts_get_absent, counts_set_absent by done.
  rewrite IH; [by rewrite <- app_assoc|done|].
  intros w Hw. rewrite map_app. simpl.
  intros [Hin|Heq%list_elem_of_singleton]%elem_of_app.
  - eapply Hdisj; [by right|done].
  - by subst.
Qed.

Lemma text_to_vector_distinct text :
  NoDup (words text) →
  text_to_vector text = replicate (length (words text)) 1.
Proof.
  intros Hnd. rewrite text_to_vector_word_counts. unfold word_counts.
  rewrite word_counts_distinct; [|done|by intros w _ ?%elem_of_nil].
  simpl. induction (words text) as [|x ws IH]; [done|].
  apply NoDup_cons in Hnd as [_ Hnd]. simpl. by rewrite <- IH.
Qed.

(** X15: the comparison is by position, not by word.  In exact
    arithmetic, two texts that have the same number of words, each text
    without a repeated word, have similarity 1, whatever their words
    are. *)
Theorem cosine_similarity_distinct_words t1 t2 :
  NoDup (words t1) → NoDup (words t2) →
  length (words t1) = length (words t2) → words t1 ≠ [] →
  cosine_similarity (map IZR (text_to_vector t1)) (map IZR (text_to_vector t2))
  = 1%R.
Proof.
  intros Hnd1 Hnd2 Hlen Hne.
  rewrite !text_to_vector_distinct, <- Hlen by done.
  apply cosine_self_of_norm.
  destruct (words t1) as [|w ws]; [done|]. simpl.
  pose proof (rsum_squares_nonneg (map IZR (replicate (length ws) 1))). lra.
Qed.

Lemma cosine_similarity_distinct_words_witness :
  cosine_similarity (map IZR (text_to_vector "C9 win T1"))
                    (map IZR (text_to_vector "G2 loss NAVI")) = 1%R.
Proof.
  apply cosine_similarity_distinct_words.
  - apply (bool_decide_unpack _). by vm_compute.
  - apply (bool_decide_unpack _). by vm_compute.
  - reflexivity.
  - discriminate.
Defined.

End vector_extras.

(** ** Retrieval: further properties of the call *)

Section retrieve_extras.
Import Py RagStore Invariants Words Samples.
Variable repr : pyval → string.

(** The call, once the first loop has run. *)
Lemma find_similar_matches_run query history ds top_k (h : heap) :
  corpus_at h history ds →
  find_similar_matches repr query history top_k h
  = for_each attach_step
      (enumerate
         (slice_to
            (sort_by (λ x : R * loc, (- x.1)%R)
               (zip_with (λ d l, (match_sim repr (text_to_vector query) d, l))
                         ds history))
            top_k))
      [] h.
Proof.
  intros Hv. unfold find_similar_matches.
  unfold mbind at 1. unfold M_bind. by rewrite (score_loop _ _ _ ds).
Qed.

(** A stable sort leaves a sorted list as it is. *)
Lemma sort_by_sorted {A} (key : A → R) l :
  StronglySorted (λ x y, (key x <= key y)%R) l → sort_by key l = l.
Proof.
  induction 1 as [|x l Hs IH Hx]; [done|].
  unfold sort_by in *. simpl foldr. rewrite IH.
  destruct l as [|y l]; [done|]. simpl.
  apply Forall_cons in Hx as [Hxy _].
  destruct (Rlt_dec _ _); [lra|done].
Qed.

Lemma match_sim_no_words d : match_sim repr [] d = 0%R.
Proof.
  unfold match_sim. apply cosine_similarity_zero_norm. left. simpl.
  apply sqrt_0.
Qed.

Lemma text_to_vector_no_words query : words query = [] → text_to_vector query = [].
Proof.
  intros Hw. rewrite text_to_vector_word_counts. unfold word_counts.
  by rewrite Hw.
Qed.

Lemma round3R_zero : round3R 0 = (0 # 1000)%Q.
Proof.
  unfold round3R. rewrite Rmult_0_l. by rewrite (nearest_of_integer 0).
Qed.

(** X16: a query without a word (the empty query that [main] takes by
    default, or one of whitespace only) gives every record the
    similarity 0, and the results are the first records of the corpus, in
    the order of the corpus. *)
Theorem retrieve_no_words query history ds top_k (h : heap) :
  words query = [] → corpus_at h history ds →
  ∃ res h',
    find_similar_matches repr query history top_k h = Some (res, h')
    ∧ length res = length (slice_to history top_k)
    ∧ ∀ i l, res !! i = Some l →
        ∃ d, ds !! i = Some d
             ∧ h' !! l = Some (<["rank" := PInt (Z.of_nat i + 1)]>
                                 (<["similarity" := PFloat (0 # 1000)]> d)).
Proof.
  intros Hw Hv. rewrite (find_similar_matches_run _ _ ds) by done.
  rewrite (text_to_vector_no_words _ Hw).
  set (scored := zip_with (λ d l, (match_sim repr [] d, l)) ds history).
  assert (length scored = length history) as Hlen.
  { unfold scored. rewrite length_zip_with. apply Forall2_length in Hv. lia. }
  rewrite sort_by_sorted.
  2:{ assert (Forall (λ x : R * loc, x.1 = 0%R) scored) as Hzero.
      { unfold scored. apply Forall_forall. intros [s l] Hin.
        apply list_elem_of_lookup_1 in Hin as [i Hi].
        apply lookup_zip_with_Some in Hi as (d & l' & [= -> ->] & _ & _).
        simpl. apply match_sim_no_words. }
      clear Hlen. induction Hzero as [|x l Hx Hl IH]; [constructor|].
      constructor; [done|].
      eapply Forall_impl; [exact Hl|]. intros y Hy. simpl in *.
      rewrite Hx, Hy. lra. }
  destruct (attach_loop (enumerate (slice_to scored top_k)) [] h)
    as (new & h' & Hrun & Hnewlen & _ & _ & Hat).
  { apply Forall_forall. intros [i [s src]] Hin%elem_of_enumerate. simpl.
    destruct (slice_to_take scored top_k) as [n Hn]. rewrite Hn in Hin.
    apply list_elem_of_lookup_2, elem_of_take in Hin as (j & Hj & _).
    apply lookup_zip_with_Some in Hj as (d & l' & [= _ ->] & _ & Hl).
    eapply Forall2_lookup_l in Hv as (d' & _ & Hd'); [|exact Hl]. eauto. }
  exists new, h'. rewrite Hrun, app_nil_l. split; [done|]. split.
  { rewrite Hnewlen, length_enumerate. by apply length_slice_to_eq. }
  intros i l Hl.
  assert (i < length (slice_to scored top_k))%nat as Hi.
  { apply lookup_lt_Some in Hl. by rewrite Hnewlen, length_enumerate in Hl. }
  apply lookup_lt_is_Some in Hi as [[s src] Hit].
  destruct (Hat i (i, (s, src)) l (enumerate_lookup _ _ _ Hit) Hl)
    as (d & Hd & Hl').
  simpl in Hd, Hl'.
  destruct (slice_to_take scored top_k) as [n Hn]. rewrite Hn in Hit.
  apply lookup_take_Some in Hit as [Hit _].
  apply lookup_zip_with_Some in Hit as (d0 & l0 & [= -> ->] & Hd0 & Hl0).
  assert (d = d0) as ->.
  { pose proof (Forall2_lookup_lr _ _ _ _ _ _ Hv Hl0 Hd0) as Hh.
    simpl in Hh. congruence. }
  exists d0. split; [done|].
  rewrite Hl'. unfold attached. by rewrite match_sim_no_words, round3R_zero.
Qed.

(** Every turn of the second loop allocates a location that is not in
    use, so the locations of one run are distinct. *)
Lemma attach_loop_distinct (items : list (nat * (R * loc))) :
  ∀ results (h : heap) new h',
    Forall (λ it, is_Some (h !! it.2.2)) items →
    for_each attach_step items results h = Some (results ++ new, h') →
    NoDup new.
Proof.
  induction items as [|[i [sim src]] items IH]; intros results h new h' Hv Hrun.
  { rewrite for_each_nil in Hrun. injection Hrun as Hres _.
    rewrite <- (app_nil_r results) in Hres at 1.
    apply app_inv_head in Hres as <-. constructor. }
  apply Forall_cons in Hv as [[d Hd] Hv]. simpl in Hd.
  rewrite for_each_cons, (attach_step_fresh _ _ _ _ d) in Hrun by done.
  set (l0 := fresh (dom h)) in *.
  set (h1 := <[l0 := attached i sim d]> h) in *.
  assert (Forall (λ it, is_Some (h1 !! it.2.2)) items) as Hv1.
  { eapply Forall_impl; [exact Hv|]. intros it [d' Hd']. exists d'.
    unfold h1. rewrite lookup_insert_ne; [done|].
    intros Heq. pose proof (is_fresh (dom h)) as Hf.
    apply not_elem_of_dom in Hf. fold l0 in Hf. rewrite Heq in Hf.
    congruence. }
  destruct (attach_loop items (results ++ [l0]) h1 Hv1)
    as (new1 & h'' & Hrun1 & _ & _ & Hnew1 & _).
  rewrite Hrun1 in Hrun. injection Hrun as Hres _.
  rewrite <- app_assoc in Hres. apply app_inv_head in Hres as <-.
  simpl. apply NoDup_cons. split.
  - intros Hin%Hnew1. unfold h1 in Hin. by rewrite lookup_insert_eq in Hin.
  - eapply IH; [exact Hv1|exact Hrun1].
Qed.

(** X17: the results are pairwise distinct objects, also when the corpus
    lists one record more than once. *)
Theorem retrieve_results_distinct query history ds top_k (h : heap) :
  corpus_at h history ds →
  ∃ res h',
    find_similar_matches repr query history top_k h = Some (res, h')
    ∧ NoDup res.
Proof.
  intros Hv.
  destruct (find_similar_matches_spec repr query history ds top_k h Hv)
    as (res & h' & _ & Hrun & _).
  exists res, h'. split; [done|].
  rewrite (find_similar_matches_run _ _ ds) in Hrun by done.
  eapply (attach_loop_distinct _ [] h res h'); [|exact Hrun].
  apply Forall_forall. intros [i [s src]] Hin%elem_of_enumerate. simpl.
  destruct (slice_to_take
              (sort_by (λ x : R * loc, (- x.1)%R)
                 (zip_with (λ d l, (match_sim repr (text_to_vector query) d, l))
                    ds history)) top_k) as [n Hn].
  rewrite Hn in Hin.
  apply list_elem_of_lookup_2, elem_of_take in Hin as (j & Hj & _).
  apply list_elem_of_lookup_2 in Hj. rewrite sort_by_perm in Hj.
  apply list_elem_of_lookup_1 in Hj as [j' Hj].
  apply lookup_zip_with_Some in Hj as (d & l' & [= _ ->] & _ & Hl).
  eapply Forall2_lookup_l in Hv as (d' & _ & Hd'); [|exact Hl]. eauto.
Qed.

(** X18: with an empty corpus, with [top_k = 0], or with a negative
    [top_k] of magnitude at least the size of the corpus, the call returns
    the empty list and allocates nothing. *)
Theorem retrieve_nothing query history ds top_k (h : heap) :
  corpus_at h history ds →
  history = [] ∨ top_k = 0 ∨ top_k <= - Z.of_nat (length history) →
  find_similar_matches repr query history top_k h = Some ([], h).
Proof.
  intros Hv Hcase. rewrite (find_similar_matches_run _ _ ds) by done.
  set (scored := sort_by _ _).
  assert (length scored = length history) as Hlen.
  { unfold scored. rewrite length_sort_by, length_zip_with.
    apply Forall2_length in Hv. lia. }
  assert (slice_to scored top_k = []) as ->; [|done].
  apply length_zero_iff_nil. unfold slice_to.
  destruct (Z.ltb_spec top_k 0); rewrite length_take, Hlen.
  - destruct Hcase as [->|[->|?]]; simpl length in *; lia.
  - destruct Hcase as [->|[->|?]]; simpl length in *; lia.
Qed.

End retrieve_extras.

Section mock_extras.
Import Py RagStore Invariants Words Samples.

Lemma retrieve_no_words_witness :
  ∃ res h',
    find_similar_matches no_repr "" mock_locs 5 mock_heap = Some (res, h')
    ∧ length res = length (slice_to mock_locs 5).
Proof.
  destruct (retrieve_no_words no_repr "" mock_locs MOCK_HISTORY 5 mock_heap)
    as (res & h' & Hrun & Hlen & _).
  - reflexivity.
  - exact mock_corpus.
  - exists res, h'. split; [exact Hrun|exact Hlen].
Defined.

Lemma retrieve_results_distinct_witness :
  ∃ res h',
    find_similar_matches no_repr "C9 win T1"
      [1%positive; 1%positive] 2 mock_heap = Some (res, h')
    ∧ NoDup res.
Proof.
  apply (retrieve_results_distinct no_repr "C9 win T1" [1%positive; 1%positive]
           (take 1 MOCK_HISTORY ++ take 1 MOCK_HISTORY) 2 mock_heap).
  repeat constructor.
Defined.

Lemma retrieve_nothing_witness :
  find_similar_matches no_repr "C9 win T1" mock_locs (-3) mock_heap
  = Some ([], mock_heap).
Proof.
  apply (retrieve_nothing no_repr "C9 win T1" mock_locs MOCK_HISTORY (-3) mock_heap).
  - exact mock_corpus.
  - right. right. simpl. lia.
Defined.

End mock_extras.

(** ** The simulator: further properties *)

Section simulator_extras.
Import Py StrategySimulator Samples.
Local Open Scope Q_scope.

(** The comparison of the rational instance. *)
Lemma lt_Q_true (x y : Q) : lt x y = true ↔ (x < y)%Q.
Proof.
  simpl. rewrite negb_true_iff. split.
  - intros Hle. apply Qnot_le_lt. intros Hyx%Qle_bool_iff. congruence.
  - intros Hlt. destruct (Qle_bool y x) eqn:Hle; [|done].
    apply Qle_bool_iff in Hle. Lqa.lra.
Qed.

Lemma lt_Q_false (x y : Q) : lt x y = false ↔ (y <= x)%Q.
Proof.
  simpl. rewrite negb_false_iff. apply Qle_bool_iff.
Qed.

(** The sum of [simulate_match] before the clamp. *)
Lemma base_probability_clamp (features : gmap string Q) :
  let raw := (5 # 10) + (feature features "win_rate" - (5 # 10)) * (4 # 10)
             + (feature features "tempo_score" - (5 # 10)) * (1 # 10)
             + (feature features "comeback_probability" - (5 # 10)) * (1 # 10) in
  base_probability features = py_max (1 # 10) (py_min (9 # 10) raw)%Q.
Proof. reflexivity. Qed.

Lemma clamp_cases (raw : Q) :
  (raw <= 1 # 10 ∧ py_max (1 # 10) (py_min (9 # 10) raw) = 1 # 10)%Q
  ∨ (1 # 10 < raw < 9 # 10 ∧ py_max (1 # 10) (py_min (9 # 10) raw) = raw)%Q
  ∨ (9 # 10 <= raw ∧ py_max (1 # 10) (py_min (9 # 10) raw) = 9 # 10)%Q.
Proof.
  unfold py_max, py_min.
  destruct (lt raw (9 # 10)%Q) eqn:Hhi.
  - apply lt_Q_true in Hhi.
    destruct (lt (1 # 10)%Q raw) eqn:Hlo.
    + apply lt_Q_true in Hlo. right. left. done.
    + apply lt_Q_false in Hlo. left. done.
  - apply lt_Q_false in Hhi. right. right. split; [done|].
    assert (lt (1 # 10)%Q (9 # 10)%Q = true) as -> by reflexivity. done.
Qed.

(** X19: whatever the features are, the base probability lies in
    [0.1, 0.9]. *)
Theorem base_probability_range (features : gmap string Q) :
  (1 # 10 <= base_probability features <= 9 # 10)%Q.
Proof.
  rewrite base_probability_clamp. simpl.
  destruct (clamp_cases
    ((5 # 10) + (feature features "win_rate" - (5 # 10)) * (4 # 10)
     + (feature features "tempo_score" - (5 # 10)) * (1 # 10)
     + (feature features "comeback_probability" - (5 # 10)) * (1 # 10))%Q)
    as [[? ->]|[[? ->]|[? ->]]]; Lqa.lra.
Qed.

Lemma feature_unit (features : gmap string Q) k :
  (∀ k v, features !! k = Some v → (0 <= v <= 1)%Q) →
  (0 <= feature features k <= 1)%Q.
Proof.
  intros Hf. unfold feature.
  destruct (features !! k) as [v|] eqn:Hk; simpl; [by eapply Hf|].
  split; discriminate.
Qed.

(** X20: for features within [0, 1] (a missing one counts as 0.5) the
    clamp never acts: the base probability is the weighted sum itself,
    and it lies in [0.2, 0.8]. *)
Theorem base_probability_unclamped (features : gmap string Q) :
  (∀ k v, features !! k = Some v → (0 <= v <= 1)%Q) →
  (base_probability features
   == (5 # 10) + (feature features "win_rate" - (5 # 10)) * (4 # 10)
      + (feature features "tempo_score" - (5 # 10)) * (1 # 10)
      + (feature features "comeback_probability" - (5 # 10)) * (1 # 10))%Q
  ∧ (2 # 10 <= base_probability features <= 8 # 10)%Q.
Proof.
  intros Hf. rewrite base_probability_clamp. simpl.
  pose proof (feature_unit features "win_rate" Hf) as Hw.
  pose proof (feature_unit features "tempo_score" Hf) as Ht.
  pose proof (feature_unit features "comeback_probability" Hf) as Hc.
  destruct (clamp_cases
    ((5 # 10) + (feature features "win_rate" - (5 # 10)) * (4 # 10)
     + (feature features "tempo_score" - (5 # 10)) * (1 # 10)
     + (feature features "comeback_probability" - (5 # 10)) * (1 # 10))%Q)
    as [[? ->]|[[? ->]|[? ->]]]; split; try split; Lqa.lra.
Qed.

Lemma base_probability_unclamped_witness :
  (2 # 10 <= base_probability all_ones_Q <= 8 # 10)%Q.
Proof.
  apply (base_probability_unclamped all_ones_Q).
  intros k v Hk.
  assert (v = 1%Q) as ->.
  { unfold all_ones_Q in Hk.
    repeat (apply lookup_insert_Some in Hk as [[_ <-]|[_ Hk]]; [done|]).
    by apply lookup_singleton_Some in Hk as [_ <-]. }
  split; discriminate.
Defined.

(** X21: the base probability is monotone: features that are no smaller
    give a base probability that is no smaller. *)
Theorem base_probability_mono (f g : gmap string Q) :
  (feature f "win_rate" <= feature g "win_rate")%Q →
  (feature f "tempo_score" <= feature g "tempo_score")%Q →
  (feature f "comeback_probability" <= feature g "comeback_probability")%Q →
  (base_probability f <= base_probability g)%Q.
Proof.
  intros Hw Ht Hc. rewrite !base_probability_clamp. simpl.
  destruct (clamp_cases
    ((5 # 10) + (feature f "win_rate" - (5 # 10)) * (4 # 10)
     + (feature f "tempo_score" - (5 # 10)) * (1 # 10)
     + (feature f "comeback_probability" - (5 # 10)) * (1 # 10))%Q)
    as [[? ->]|[[? ->]|[? ->]]];
  destruct (clamp_cases
    ((5 # 10) + (feature g "win_rate" - (5 # 10)) * (4 # 10)
     + (feature g "tempo_score" - (5 # 10)) * (1 # 10)
     + (feature g "comeback_probability" - (5 # 10)) * (1 # 10))%Q)
    as [[? ->]|[[? ->]|[? ->]]]; Lqa.lra.
Qed.

Lemma base_probability_mono_witness :
  (base_probability (∅ : gmap string Q) <= base_probability all_ones_Q)%Q.
Proof.
  apply base_probability_mono; vm_compute; discriminate.
Defined.

(** X22: the result of [simulate_match] is the number of draws below the
    base probability, out of 1000, divided by 1000: the rounding to three
    decimals changes nothing, and the result lies in [0, 1]. *)
Theorem simulate_match_counts {F} `{Arith F} (features : gmap string F)
    (draws : nat → F) :
  let wins :=
    length (filter (λ i, lt (draws i) (base_probability features) = true)
                   (seq 0 num_simulations)) in
  simulate_match features draws = (Z.of_nat wins # 1000)%Q
  ∧ (wins ≤ 1000)%nat
  ∧ (0 <= simulate_match features draws <= 1)%Q.
Proof.
  intros wins.
  assert (wins ≤ 1000)%nat as Hwins.
  { unfold wins. etrans; [apply length_filter|]. by rewrite length_seq. }
  assert (simulate_match features draws = (Z.of_nat wins # 1000)%Q) as Heq.
  { unfold simulate_match. fold wins.
    change (Z.of_nat num_simulations) with 1000%Z.
    unfold round3, qdiv, half_even. simpl Qnum. simpl Qden.
    rewrite Z.mul_1_r, Z.mod_mul, Z.div_mul by done. simpl. done. }
  split; [done|]. split; [done|].
  rewrite Heq. unfold Qle. simpl. lia.
Qed.

End simulator_extras.
